(** * intelligent-fixer.py: a shallow embedding and its checked properties

    The script reads each file named in a static table, applies an ordered
    list of [re.sub] substitutions to its text and writes the file back when
    the text changed.  This development embeds

    - the text and byte level of [open(..., encoding='utf-8')] (strict UTF-8,
      universal newlines on reading),
    - the part of Python's [re] pattern and template language the table uses
      (and a little more: groups, alternation, sets, anchors, backreferences),
      as a backtracking matcher with the priorities of [sre]; a pattern or a
      template that uses anything else has the result [Beyond], which is
      neither a value nor an exception and about which nothing is stated,
    - [fix_file], the table [file_fixes] and the driver loop, in a monad of
      exceptions over a world made of the file system, the stream behind
      standard output (which may refuse a line), and a log of the
      file-system calls.

    The interpreter is CPython 3.7 or later on a POSIX system. *)

From Stdlib Require Import Strings.String Strings.Ascii Strings.Byte NArith
  ZArith Lia.
From stdpp Require Import base option list gmap strings.

Local Open Scope N_scope.

(** ** Text *)

(** A Python [str] is a sequence of code points. *)
Definition text : Type := list N.

(** An ASCII literal of the source as a [str]. *)
Definition chr (a : ascii) : N := N_of_ascii a.

Fixpoint str (s : string) : text :=
  match s with
  | EmptyString => []
  | String a s' => chr a :: str s'
  end.

Definition LF : N := 10.
Definition CR : N := 13.

(** ** UTF-8, as the [utf-8] codec with [errors='strict'] *)

Module utf8.

Definition is_cont (b : N) : bool := (128 <=? b) && (b <=? 191).

Definition in_range (lo hi b : N) : bool := (lo <=? b) && (b <=? hi).

(** Decoding rejects stray continuation bytes, overlong forms (lead bytes
    C0, C1, and E0/F0 followed by a too small second byte), surrogates
    (ED A0..BF) and everything above U+10FFFF. *)
Fixpoint decode (bs : list N) : option text :=
  match bs with
  | [] => Some []
  | b0 :: t0 =>
    if b0 <? 128 then cons b0 <$> decode t0
    else if b0 <? 194 then None
    else if b0 <? 224 then
      match t0 with
      | b1 :: t1 =>
        if is_cont b1
        then cons ((b0 - 192) * 64 + (b1 - 128)) <$> decode t1
        else None
      | _ => None
      end
    else if b0 <? 240 then
      match t0 with
      | b1 :: b2 :: t2 =>
        let lo := if b0 =? 224 then 160 else 128 in
        let hi := if b0 =? 237 then 159 else 191 in
        if in_range lo hi b1 && is_cont b2
        then cons ((b0 - 224) * 4096 + (b1 - 128) * 64 + (b2 - 128))
               <$> decode t2
        else None
      | _ => None
      end
    else if b0 <? 245 then
      match t0 with
      | b1 :: b2 :: b3 :: t3 =>
        let lo := if b0 =? 240 then 144 else 128 in
        let hi := if b0 =? 244 then 143 else 191 in
        if in_range lo hi b1 && is_cont b2 && is_cont b3
        then cons ((b0 - 240) * 262144 + (b1 - 128) * 4096
                   + (b2 - 128) * 64 + (b3 - 128))
               <$> decode t3
        else None
      | _ => None
      end
    else None
  end.

(** Encoding fails on surrogates (a [str] may hold them, a file may not)
    and on numbers that are no code points. *)
Definition encode_char (c : N) : option (list N) :=
  if c <? 128 then Some [c]
  else if c <? 2048 then Some [192 + c / 64; 128 + c mod 64]
  else if c <? 65536 then
    if in_range 55296 57343 c then None
    else Some [224 + c / 4096; 128 + (c / 64) mod 64; 128 + c mod 64]
  else if c <? 1114112 then
    Some [240 + c / 262144; 128 + (c / 4096) mod 64;
          128 + (c / 64) mod 64; 128 + c mod 64]
  else None.

Fixpoint encode (t : text) : option (list N) :=
  match t with
  | [] => Some []
  | c :: t' =>
    match encode_char c, encode t' with
    | Some bs, Some rest => Some (bs ++ rest)
    | _, _ => None
    end
  end.

End utf8.

Definition byte_of_N (n : N) : byte :=
  match Byte.of_N n with Some b => b | None => x00 end.

Definition decode_utf8 (bs : list byte) : option text :=
  utf8.decode (map Byte.to_N bs).

Definition encode_utf8 (t : text) : option (list byte) :=
  map byte_of_N <$> utf8.encode t.

(** Text mode with [newline=None]: on reading, CR LF and a lone CR both
    become LF.  On writing LF becomes [os.linesep], which is LF itself on the
    POSIX systems the script's [#!/usr/bin/env python3] line is for: writing
    translates nothing. *)
Fixpoint universal_newlines (t : text) : text :=
  match t with
  | [] => []
  | c :: t' =>
    if c =? CR then
      match t' with
      | d :: t'' =>
        if d =? LF then LF :: universal_newlines t''
        else LF :: universal_newlines t'
      | [] => [LF]
      end
    else c :: universal_newlines t'
  end.

(** ** Exceptions *)

(** The exceptions the script can meet, all of them subclasses of Python's
    [Exception].  [NoSpaceError] is the [OSError] of [ENOSPC], which carries
    no file name when a write raises it; [re_error] is [re.error], whose
    message and position are not kept. *)
Inductive exn :=
| FileNotFoundError (filename : string)
| PermissionError (filename : string)
| NoSpaceError
| UnicodeDecodeError
| UnicodeEncodeError
| re_error.

(** What a computation comes to: a value, an exception, or [Beyond]: it met
    [re] syntax outside the fragment embedded below.  [Beyond] is no
    exception, no handler sees it, and it ends the run of the model: what
    Python does from there on is not described. *)
Inductive result (A : Type) :=
| Ok (a : A)
| Raise (e : exn)
| Beyond (what : string).
Arguments Ok {A} a.
Arguments Raise {A} e.
Arguments Beyond {A} what.

#[global] Instance result_ret : MRet result := λ A a, Ok a.
#[global] Instance result_bind : MBind result := λ A B f r,
  match r with
  | Ok a => f a
  | Raise e => Raise e
  | Beyond what => Beyond what
  end.

(** ** The [re] module: patterns, templates, [re.sub] *)

Module re.

(** The flags argument; the script passes [re.MULTILINE] only. *)
Record flags := Flags { MULTILINE : bool }.

Inductive set_item :=
| SChar (c : N)
| SRange (lo hi : N)
| SSpace (neg : bool).

Inductive regex :=
| REmpty
| RChar (c : N)                        (* a literal character *)
| RAny                                 (* .  *)
| RSpace (neg : bool)                  (* \s and \S *)
| RSet (neg : bool) (items : list set_item)    (* [...] and [^...] *)
| RBol                                 (* ^ *)
| REol                                 (* $ *)
| RSeq (r1 r2 : regex)
| RAlt (r1 r2 : regex)                 (* r1|r2 *)
| RStar (greedy : bool) (r : regex)    (* r* and r*? *)
| RPlus (greedy : bool) (r : regex)    (* r+ and r+? *)
| ROpt (greedy : bool) (r : regex)     (* r? and r?? *)
| RGroup (g : option nat) (r : regex)  (* (r) with its number, (?:r) *)
| RBackref (n : nat).                  (* \1 .. \9 *)

(** *** Matching *)

Definition in_range (lo hi c : N) : bool := (lo <=? c) && (c <=? hi).

(** [\s] on a [str] pattern: the characters for which [str.isspace()]
    holds. *)
Definition is_space (c : N) : bool :=
  in_range 9 13 c || in_range 28 32 c || (c =? 133) || (c =? 160)
  || (c =? 5760) || in_range 8192 8202 c || in_range 8232 8233 c
  || (c =? 8239) || (c =? 8287) || (c =? 12288).

Definition set_item_has (c : N) (i : set_item) : bool :=
  match i with
  | SChar x => c =? x
  | SRange lo hi => in_range lo hi c
  | SSpace neg => xorb neg (is_space c)
  end.

Definition in_set (items : list set_item) (c : N) : bool :=
  existsb (set_item_has c) items.

(** The matcher walks the subject from left to right.  It knows the
    character before the current position ([None] at the start of the
    subject), what is left of the subject, and the groups captured so
    far. *)
Record mstate := MState {
  ms_prev : option N;
  ms_rest : text;
  ms_caps : gmap nat text
}.

Definition cont : Type := mstate → option mstate.

Definition at_bol (fl : flags) (st : mstate) : bool :=
  match ms_prev st with
  | None => true
  | Some c => MULTILINE fl && (c =? LF)
  end.

Definition at_eol (fl : flags) (st : mstate) : bool :=
  match ms_rest st with
  | [] => true
  | c :: t =>
    (c =? LF) && (MULTILINE fl || match t with [] => true | _ => false end)
  end.

Definition step (p : N → bool) (k : cont) (st : mstate) : option mstate :=
  match ms_rest st with
  | c :: t => if p c then k (MState (Some c) t (ms_caps st)) else None
  | [] => None
  end.

(** The text consumed between two states of one run. *)
Definition consumed (st st' : mstate) : text :=
  take (length (ms_rest st) - length (ms_rest st'))%nat (ms_rest st).

Definition close_group (g : option nat) (st st' : mstate) : mstate :=
  match g with
  | Some n => MState (ms_prev st') (ms_rest st')
                     (<[n := consumed st st']> (ms_caps st'))
  | None => st'
  end.

Fixpoint is_prefix (p s : text) : bool :=
  match p, s with
  | [], _ => true
  | x :: p', y :: s' => (x =? y) && is_prefix p' s'
  | _ :: _, [] => false
  end.

Definition skip_over (t : text) (st : mstate) : mstate :=
  MState (match last t with Some c => Some c | None => ms_prev st end)
         (drop (length t) (ms_rest st)) (ms_caps st).

(** A repetition: [body] is tried again as long as the last round consumed
    something; a round that consumed nothing is accepted once and ends the
    repetition.  Greedy repetitions prefer one more round, lazy ones
    prefer to go on with [k].  The counter bounds the number of rounds that
    consume something; it starts above the length of the subject. *)
Fixpoint repeat (body : cont → cont) (greedy : bool) (k : cont)
    (fuel : nat) (st : mstate) : option mstate :=
  match fuel with
  | O => k st
  | S fuel' =>
    let again (_ : unit) :=
      body (λ st', if Nat.eqb (length (ms_rest st')) (length (ms_rest st))
                   then k st' else repeat body greedy k fuel' st') st in
    if greedy then
      match again () with Some r => Some r | None => k st end
    else
      match k st with Some r => Some r | None => again () end
  end.

(** Backtracking in the order of [sre]: the first alternative first, the
    longest repetition first (the shortest for a lazy one).  [k] is what
    remains to be matched after [r]. *)
Fixpoint m (fl : flags) (r : regex) (k : cont) (st : mstate) {struct r}
    : option mstate :=
  match r with
  | REmpty => k st
  | RChar c => step (N.eqb c) k st
  | RAny => step (λ x, negb (x =? LF)) k st
  | RSpace neg => step (λ x, xorb neg (is_space x)) k st
  | RSet neg items => step (λ x, xorb neg (in_set items x)) k st
  | RBol => if at_bol fl st then k st else None
  | REol => if at_eol fl st then k st else None
  | RSeq r1 r2 => m fl r1 (m fl r2 k) st
  | RAlt r1 r2 =>
    match m fl r1 k st with Some x => Some x | None => m fl r2 k st end
  | RStar g r' => repeat (m fl r') g k (S (length (ms_rest st))) st
  | RPlus g r' =>
    m fl r' (λ st', repeat (m fl r') g k (S (length (ms_rest st'))) st') st
  | ROpt g r' =>
    if g then
      match m fl r' k st with Some x => Some x | None => k st end
    else
      match k st with Some x => Some x | None => m fl r' k st end
  | RGroup g r' => m fl r' (λ st', k (close_group g st st')) st
  | RBackref n =>
    match ms_caps st !! n with
    | Some t => if is_prefix t (ms_rest st) then k (skip_over t st) else None
    | None => None
    end
  end.

(** One attempt at the current position: the length of the match and its
    groups.  With [must_advance] an empty match is refused and the matcher
    backtracks into a longer one (this is how [sub] goes on after an empty
    match). *)
Definition match_here (fl : flags) (r : regex) (prev : option N) (s : text)
    (must_advance : bool) : option (nat * gmap nat text) :=
  match
    m fl r
      (λ st', if must_advance && Nat.eqb (length (ms_rest st')) (length s)
              then None else Some st')
      (MState prev s ∅)
  with
  | Some st' => Some ((length s - length (ms_rest st'))%nat, ms_caps st')
  | None => None
  end.

(** [re.search]: the leftmost position with a match; the offset of the
    match, its length and its groups. *)
Fixpoint search_from (fl : flags) (r : regex) (prev : option N) (s : text)
    (offset : nat) : option (nat * nat * gmap nat text) :=
  match match_here fl r prev s false with
  | Some (n, caps) => Some (offset, n, caps)
  | None =>
    match s with
    | [] => None
    | c :: s' => search_from fl r (Some c) s' (S offset)
    end
  end.

(** *** Patterns: from the pattern string to a [regex] *)

(** The tokenizer of [sre_parse]: a backslash and the character after it are
    one token.  A backslash that ends the string is an error, raised when
    the parser gets there. *)
Inductive token :=
| TChar (c : N)
| TEsc (c : N)
| TDangling.

Fixpoint tokenize (s : text) : list token :=
  match s with
  | [] => []
  | c :: t =>
    if c =? chr "\" then
      match t with
      | [] => [TDangling]
      | e :: t' => TEsc e :: tokenize t'
      end
    else TChar c :: tokenize t
  end.

Definition is_digit (c : N) : bool := in_range (chr "0") (chr "9") c.
Definition is_octdigit (c : N) : bool := in_range (chr "0") (chr "7") c.
Definition is_ascii_letter (c : N) : bool :=
  in_range (chr "a") (chr "z") c || in_range (chr "A") (chr "Z") c.
Definition digit_value (c : N) : nat := N.to_nat (c - chr "0").

(** [ESCAPES] of [sre_parse], without the backslash itself. *)
Definition control_escape (e : N) : option N :=
  if e =? chr "a" then Some 7
  else if e =? chr "b" then Some 8
  else if e =? chr "f" then Some 12
  else if e =? chr "n" then Some 10
  else if e =? chr "r" then Some 13
  else if e =? chr "t" then Some 9
  else if e =? chr "v" then Some 11
  else None.

(** What a quantifier may follow: not an anchor, not another quantifier. *)
Inductive kind := Plain | Anchor | Repeated.

(** A group being parsed: the branches finished so far and the items of the
    current branch, both newest first. *)
Record frame := Frame {
  fr_group : option nat;
  fr_alts : list regex;
  fr_seq : list (regex * kind)
}.

Record pstate := PState {
  ps_cur : frame;
  ps_stack : list frame;
  ps_groups : nat;          (* groups opened so far *)
  ps_closed : list nat      (* groups closed so far *)
}.

Definition mk_seq (items : list (regex * kind)) : regex :=
  fold_left (λ acc it, RSeq it.1 acc) items REmpty.

Definition mk_alt (alts : list regex) (last : regex) : regex :=
  fold_left (λ acc b, RAlt b acc) alts last.

Definition close_frame (f : frame) : regex :=
  mk_alt (fr_alts f) (mk_seq (fr_seq f)).

Definition push_item (it : regex * kind) (st : pstate) : pstate :=
  let f := ps_cur st in
  PState (Frame (fr_group f) (fr_alts f) (it :: fr_seq f))
         (ps_stack st) (ps_groups st) (ps_closed st).

Definition next_branch (st : pstate) : pstate :=
  let f := ps_cur st in
  PState (Frame (fr_group f) (mk_seq (fr_seq f) :: fr_alts f) [])
         (ps_stack st) (ps_groups st) (ps_closed st).

Definition open_group (capture : bool) (st : pstate) : pstate :=
  if capture then
    PState (Frame (Some (S (ps_groups st))) [] [])
           (ps_cur st :: ps_stack st) (S (ps_groups st)) (ps_closed st)
  else
    PState (Frame None [] [])
           (ps_cur st :: ps_stack st) (ps_groups st) (ps_closed st).

Definition shut_group (st : pstate) : option pstate :=
  match ps_stack st with
  | [] => None
  | parent :: stack =>
    let f := ps_cur st in
    let item := (RGroup (fr_group f) (close_frame f), Plain) in
    Some (PState (Frame (fr_group parent) (fr_alts parent)
                        (item :: fr_seq parent))
                 stack (ps_groups st)
                 (match fr_group f with
                  | Some n => n :: ps_closed st
                  | None => ps_closed st
                  end))
  end.

Definition quantified (q : N) (greedy : bool) (r : regex) : regex :=
  if q =? chr "*" then RStar greedy r
  else if q =? chr "+" then RPlus greedy r
  else ROpt greedy r.

Definition quantify (q : N) (greedy : bool) (st : pstate) : result pstate :=
  let f := ps_cur st in
  match fr_seq f with
  | [] => Raise re_error
  | (_, Anchor) :: _ => Raise re_error
  | (_, Repeated) :: _ => Raise re_error
  | (r, Plain) :: items =>
    Ok (PState (Frame (fr_group f) (fr_alts f)
                      ((quantified q greedy r, Repeated) :: items))
               (ps_stack st) (ps_groups st) (ps_closed st))
  end.

Definition is_quantifier (c : N) : bool :=
  (c =? chr "*") || (c =? chr "+") || (c =? chr "?").

(** An escape outside a set.  [next_digit]: the next character is a digit,
    which would make a two-digit group number or an octal escape. *)
Definition escape (e : N) (next_digit : bool) (st : pstate)
    : result (regex * kind) :=
  if e =? chr "s" then Ok (RSpace false, Plain)
  else if e =? chr "S" then Ok (RSpace true, Plain)
  else if existsb (N.eqb e) (str "AbBdDwWZzxuUN") then
    Beyond "escape"
  else
    match control_escape e with
    | Some c => Ok (RChar c, Plain)
    | None =>
      if is_digit e then
        if (e =? chr "0") || next_digit then Beyond "octal escape"
        else
          let n := digit_value e in
          if (n <=? ps_groups st)%nat then
            if existsb (Nat.eqb n) (ps_closed st) then Ok (RBackref n, Plain)
            else Raise re_error
          else Raise re_error
      else if is_ascii_letter e then Raise re_error
      else Ok (RChar e, Plain)
    end.

(** An escape inside a set. *)
Definition class_escape (e : N) : result set_item :=
  if e =? chr "s" then Ok (SSpace false)
  else if e =? chr "S" then Ok (SSpace true)
  else if existsb (N.eqb e) (str "dDwWzxuUN") then Beyond "escape"
  else
    match control_escape e with
    | Some c => Ok (SChar c)
    | None =>
      if is_digit e then Beyond "octal escape"
      else if is_ascii_letter e then Raise re_error
      else Ok (SChar e)
    end.

Definition set_code (t : token) : result set_item :=
  match t with
  | TChar c => Ok (SChar c)
  | TEsc e => class_escape e
  | TDangling => Raise re_error
  end.

Definition set_range (lo hi : set_item) : result set_item :=
  match lo, hi with
  | SChar a, SChar b =>
    if b <? a then Raise re_error else Ok (SRange a b)
  | _, _ => Raise re_error
  end.

(** After an unescaped brace: digits, then possibly a comma and digits, then
    the closing brace make a counted repetition; a brace followed at once by a
    closing brace, or by anything else, is a literal brace. *)
Fixpoint brace_digits (after_comma : bool) (ts : list token) : bool :=
  match ts with
  | TChar c :: ts' =>
    if is_digit c then brace_digits after_comma ts'
    else if c =? chr "," then negb after_comma && brace_digits true ts'
    else c =? chr "}"
  | _ => false
  end.

Definition is_repeat_spec (ts : list token) : bool :=
  match ts with
  | TChar c :: _ => negb (c =? chr "}") && brace_digits false ts
  | _ => false
  end.

Inductive mode :=
| Normal
| InSet (neg : bool) (items : list set_item).

Definition next_is_digit (ts : list token) : bool :=
  match ts with
  | TChar x :: _ => is_digit x
  | _ => false
  end.

(** The parser of CPython calls itself for every group inside a group, and
    a few hundred groups one inside the other exhaust the interpreter's
    stack.  The fragment stops well before that. *)
Definition nesting_limit : nat := 100.

(** The parser reads the tokens once, with the groups that are still open on
    a stack. *)
Fixpoint parse (md : mode) (st : pstate) (ts : list token) {struct ts}
    : result (regex * nat) :=
  match ts with
  | [] =>
    match md with
    | InSet _ _ => Raise re_error
    | Normal =>
      match ps_stack st with
      | [] => Ok (close_frame (ps_cur st), ps_groups st)
      | _ :: _ => Raise re_error
      end
    end
  | tk :: ts' =>
    match md with
    | Normal =>
      match tk with
      | TDangling => Raise re_error
      | TEsc e =>
        it ← escape e (next_is_digit ts') st;
        parse Normal (push_item it st) ts'
      | TChar c =>
        if c =? chr "(" then
          if (nesting_limit <=? length (ps_stack st))%nat then
            Beyond "nesting"
          else
          match ts' with
          | TChar q :: ts'' =>
            if q =? chr "?" then
              match ts'' with
              | TChar x :: ts3 =>
                if x =? chr ":" then parse Normal (open_group false st) ts3
                else Beyond "group extension"
              | _ => Raise re_error
              end
            else parse Normal (open_group true st) ts'
          | _ => parse Normal (open_group true st) ts'
          end
        else if c =? chr ")" then
          match shut_group st with
          | Some st' => parse Normal st' ts'
          | None => Raise re_error
          end
        else if c =? chr "|" then parse Normal (next_branch st) ts'
        else if is_quantifier c then
          match ts' with
          | TChar x :: ts'' =>
            if x =? chr "?" then
              st' ← quantify c false st; parse Normal st' ts''
            else if x =? chr "+" then
              _ ← quantify c true st; Beyond "possessive repeat"
            else st' ← quantify c true st; parse Normal st' ts'
          | _ => st' ← quantify c true st; parse Normal st' ts'
          end
        else if c =? chr "{" then
          if is_repeat_spec ts' then Beyond "counted repeat"
          else parse Normal (push_item (RChar c, Plain) st) ts'
        else if c =? chr "." then parse Normal (push_item (RAny, Plain) st) ts'
        else if c =? chr "^" then
          parse Normal (push_item (RBol, Anchor) st) ts'
        else if c =? chr "$" then
          parse Normal (push_item (REol, Anchor) st) ts'
        else if c =? chr "[" then
          match ts' with
          | TChar x :: ts'' =>
            if x =? chr "^" then parse (InSet true []) st ts''
            else parse (InSet false []) st ts'
          | _ => parse (InSet false []) st ts'
          end
        else parse Normal (push_item (RChar c, Plain) st) ts'
      end
    | InSet neg items =>
      let closing :=
        match tk, items with
        | TChar c, _ :: _ => c =? chr "]"
        | _, _ => false
        end in
      if closing then
        parse Normal (push_item (RSet neg (rev items), Plain) st) ts'
      else
        code1 ← set_code tk;
        match ts' with
        | TChar d :: u =>
          if d =? chr "-" then
            match u with
            | [] => Raise re_error
            | that :: u' =>
              if match that with TChar y => y =? chr "]" | _ => false end then
                parse Normal
                  (push_item
                     (RSet neg (rev (SChar (chr "-") :: code1 :: items)),
                      Plain) st) u'
              else
                code2 ← set_code that;
                rg ← set_range code1 code2;
                parse (InSet neg (rg :: items)) st u'
            end
          else parse (InSet neg (code1 :: items)) st ts'
        | _ => parse (InSet neg (code1 :: items)) st ts'
        end
    end
  end.

(** [re.compile]: the pattern as a [regex] and the number of its groups. *)
Definition compile (pattern : text) : result (regex * nat) :=
  parse Normal (PState (Frame None [] []) [] 0 []) (tokenize pattern).

(** *** Replacement templates *)

Inductive titem :=
| TLit (c : N)
| TRef (n : nat).

Definition group_ref (groups n : nat) : result titem :=
  if (groups <? n)%nat then Raise re_error
  else Ok (TRef n).

Definition oct (c : N) : N := c - chr "0".

Definition decimal (digits : list N) : nat :=
  fold_left (λ acc d, (10 * acc + digit_value d)%nat) digits 0%nat.

(** [parse_template] of [sre_parse].  [name] holds the characters read so far
    of the name in [\g<name>], newest first. *)
Fixpoint parse_template (groups : nat) (name : option (list N))
    (ts : list token) {struct ts} : result (list titem) :=
  match ts with
  | [] =>
    match name with
    | None => Ok []
    | Some _ => Raise re_error
    end
  | tk :: ts' =>
    match name with
    | Some acc =>
      match tk with
      | TEsc _ | TDangling => Raise re_error
      | TChar c =>
        if c =? chr ">" then
          match acc with
          | [] => Raise re_error
          | _ :: _ =>
            if forallb is_digit acc then
              it ← group_ref groups (decimal (rev acc));
              rest ← parse_template groups None ts';
              Ok (it :: rest)
            else Beyond "group name"
          end
        else parse_template groups (Some (c :: acc)) ts'
      end
    | None =>
      match tk with
      | TDangling => Raise re_error
      | TChar c => rest ← parse_template groups None ts'; Ok (TLit c :: rest)
      | TEsc c =>
        if c =? chr "g" then
          match ts' with
          | TChar x :: ts'' =>
            if x =? chr "<" then parse_template groups (Some []) ts''
            else Raise re_error
          | _ => Raise re_error
          end
        else if c =? chr "0" then
          match ts' with
          | TChar d1 :: ts1 =>
            if is_octdigit d1 then
              match ts1 with
              | TChar d2 :: ts2 =>
                if is_octdigit d2 then
                  rest ← parse_template groups None ts2;
                  Ok (TLit (oct d1 * 8 + oct d2) :: rest)
                else
                  rest ← parse_template groups None ts1;
                  Ok (TLit (oct d1) :: rest)
              | _ =>
                rest ← parse_template groups None ts1;
                Ok (TLit (oct d1) :: rest)
              end
            else rest ← parse_template groups None ts'; Ok (TLit 0 :: rest)
          | _ => rest ← parse_template groups None ts'; Ok (TLit 0 :: rest)
          end
        else if is_digit c then
          match ts' with
          | TChar d1 :: ts1 =>
            if is_digit d1 then
              match ts1 with
              | TChar d2 :: ts2 =>
                if is_octdigit c && is_octdigit d1 && is_octdigit d2 then
                  let v := oct c * 64 + oct d1 * 8 + oct d2 in
                  if 255 <? v then Raise re_error
                  else rest ← parse_template groups None ts2;
                       Ok (TLit v :: rest)
                else
                  it ← group_ref groups (decimal [c; d1]);
                  rest ← parse_template groups None ts1;
                  Ok (it :: rest)
              | _ =>
                it ← group_ref groups (decimal [c; d1]);
                rest ← parse_template groups None ts1;
                Ok (it :: rest)
              end
            else
              it ← group_ref groups (digit_value c);
              rest ← parse_template groups None ts';
              Ok (it :: rest)
          | _ =>
            it ← group_ref groups (digit_value c);
            rest ← parse_template groups None ts';
            Ok (it :: rest)
          end
        else
          match control_escape c with
          | Some x => rest ← parse_template groups None ts'; Ok (TLit x :: rest)
          | None =>
            if c =? chr "\" then
              rest ← parse_template groups None ts'; Ok (TLit c :: rest)
            else if is_ascii_letter c then Raise re_error
            else
              rest ← parse_template groups None ts';
              Ok (TLit (chr "\") :: TLit c :: rest)
          end
      end
    end
  end.

Definition compile_template (groups : nat) (repl : text)
    : result (list titem) :=
  parse_template groups None (tokenize repl).

(** [expand_template]: a group that took no part in the match expands to the
    empty string; group 0 is the whole match. *)
Definition expand_item (whole : text) (caps : gmap nat text) (it : titem)
    : text :=
  match it with
  | TLit c => [c]
  | TRef O => whole
  | TRef n => default [] (caps !! n)
  end.

Definition expand (tpl : list titem) (whole : text) (caps : gmap nat text)
    : text :=
  concat (map (expand_item whole caps) tpl).

(** *** [re.sub] *)

(** [count] replacements at most; [None] is Python's [count=0], no limit. *)
Definition exhausted (budget : option nat) : bool :=
  match budget with
  | Some O => true
  | _ => false
  end.

Definition spend (budget : option nat) : option nat := pred <$> budget.

(** What [sub] does at one position of the subject, reached by copying or at
    the end of the previous match: the text it emits there, the length of the
    non-empty match that starts there (0 if there is none: the character at
    this position is then copied) and what is left of the budget.  An empty
    match is replaced, and then a non-empty match is looked for at the same
    position. *)
Definition at_position (fl : flags) (r : regex) (tpl : list titem)
    (budget : option nat) (prev : option N) (s : text)
    : text * nat * option nat :=
  if exhausted budget then ([], O, budget)
  else
    match match_here fl r prev s false with
    | None => ([], O, budget)
    | Some (S n, caps) => (expand tpl (take (S n) s) caps, S n, spend budget)
    | Some (O, caps) =>
      let out1 := expand tpl [] caps in
      let budget1 := spend budget in
      if exhausted budget1 then (out1, O, budget1)
      else
        match match_here fl r prev s true with
        | Some (S n, caps') =>
          (out1 ++ expand tpl (take (S n) s) caps', S n, spend budget1)
        | _ => (out1, O, budget1)
        end
    end.

(** The loop of [sub] over the subject.  [skip] counts the characters of the
    current match that are still to be passed over. *)
Fixpoint scan (fl : flags) (r : regex) (tpl : list titem)
    (budget : option nat) (prev : option N) (s : text) (skip : nat)
    {struct s} : text :=
  match skip with
  | S n =>
    match s with
    | [] => []
    | c :: s' => scan fl r tpl budget (Some c) s' n
    end
  | O =>
    let '(out, n, budget') := at_position fl r tpl budget prev s in
    out ++
    match s with
    | [] => []
    | c :: s' =>
      match n with
      | O => c :: scan fl r tpl budget' (Some c) s' O
      | S n' => scan fl r tpl budget' (Some c) s' n'
      end
    end
  end.

(** [re.sub(pattern, repl, string, count=0, flags=0)] for string arguments.
    The pattern is compiled first, then the template, then the subject is
    scanned; both compilations can raise. *)
Definition sub (pattern repl string : text) (count : nat) (fl : flags)
    : result text :=
  '(r, groups) ← compile pattern;
  tpl ← compile_template groups repl;
  Ok (scan fl r tpl (match count with O => None | S _ => Some count end)
        None string O).

(** [re.search(pattern, string, flags)], as offset and length of the first
    match. *)
Definition search (pattern string : text) (fl : flags)
    : result (option (nat * nat)) :=
  '(r, _) ← compile pattern;
  Ok ((λ x, (x.1.1, x.1.2)) <$> search_from fl r None string O).

End re.

(** ** The world: files, standard output, and a log of file-system calls *)

Record file := File {
  readable : bool;
  writable : bool;
  data : list byte
}.

Inductive open_mode := ModeR | ModeW.

(** The calls the script makes on the file system, in the order it makes
    them.  [EvOpen] is logged for every [open], whether it succeeds or not;
    [EvRead] when [f.read()] returned the content; [EvWrite] when [f.write]
    is called with the content. *)
Inductive event :=
| EvOpen (filename : string) (md : open_mode)
| EvRead (filename : string) (content : text)
| EvWrite (filename : string) (content : text).

(** A line given to [print]: the text the script writes itself, followed,
    in the diagnostic of line 23, by [str(e)] for the exception [e] that
    was caught.  The wording of [str(e)] is CPython's; [str_exn] below gives
    it where it is a fixed text. *)
Record line := Line {
  line_text : string;
  line_exn : option exn
}.

Definition plain (s : string) : line := Line s None.

(** The stream behind [sys.stdout], which is open when the script starts.
    It may refuse a line: [print] then
    raises (a [UnicodeEncodeError] when the encoding of the stream has no
    code for a character of the line, an [OSError] when an unbuffered device
    fails) and the line is not written.  [refuses printed l] is the
    exception for the line [l] after the lines [printed], [None] when the
    line is taken.  [fails_at_exit printed] tells whether the flush of the
    stream fails when the interpreter exits, as it does when buffered lines
    cannot be delivered. *)
Record stream := Stream {
  refuses : list line → line → option exn;
  fails_at_exit : list line → bool
}.

(** Paths are kept as the script passes them to [open]: relative ones are
    resolved by the operating system against the working directory.
    [free_space] is the number of bytes the device can still store,
    [stdout] the lines [print] has written so far. *)
Record world := World {
  files : gmap string file;
  free_space : nat;
  stdout : list line;
  calls : list event;
  sys_stdout : stream
}.

(** A statement of the script: it runs in a world and yields a value,
    raises, or leaves the fragment. *)
Definition IO (A : Type) : Type := world → result A * world.

#[global] Instance IO_ret : MRet IO := λ A a w, (Ok a, w).
#[global] Instance IO_bind : MBind IO := λ A B f m w,
  match m w with
  | (Ok a, w') => f a w'
  | (Raise e, w') => (Raise e, w')
  | (Beyond what, w') => (Beyond what, w')
  end.

(** A primitive given by what it does to the world. *)
Definition io {A} (f : world → result A * world) : IO A := f.

Definition raise {A} (e : exn) : IO A := λ w, (Raise e, w).

Definition lift {A} (r : result A) : IO A := λ w, (r, w).

(** [try: body except Exception as e: handler e]. *)
Definition try_except {A} (body : IO A) (handler : exn → IO A) : IO A :=
  λ w,
    match body w with
    | (Ok a, w') => (Ok a, w')
    | (Raise e, w') => handler e w'
    | (Beyond what, w') => (Beyond what, w')
    end.

Definition log (e : event) : IO unit := λ w,
  (Ok tt, World (files w) (free_space w) (stdout w) (calls w ++ [e])
                (sys_stdout w)).

(** [print(l)]: the line goes to the stream, which takes it or raises. *)
Definition print (l : line) : IO unit := λ w,
  match refuses (sys_stdout w) (stdout w) l with
  | Some e => (Raise e, w)
  | None =>
    (Ok tt, World (files w) (free_space w) (stdout w ++ [l]) (calls w)
                  (sys_stdout w))
  end.

(** [open(filename, 'r', encoding='utf-8')]: the bytes behind the handle. *)
Definition open_r (filename : string) : IO (list byte) :=
  log (EvOpen filename ModeR);;
  io (λ w,
    match files w !! filename with
    | None => (Raise (FileNotFoundError filename), w)
    | Some f =>
      if readable f then (Ok (data f), w)
      else (Raise (PermissionError filename), w)
    end).

(** [f.read()] on a handle opened by [open_r]. *)
Definition read (filename : string) (raw : list byte) : IO text :=
  match decode_utf8 raw with
  | None => raise UnicodeDecodeError
  | Some t =>
    let content := universal_newlines t in
    log (EvRead filename content);; mret content
  end.

(** [open(filename, 'w', encoding='utf-8')]: the file is created, or
    emptied at once, before anything is written. *)
Definition open_w (filename : string) : IO unit :=
  log (EvOpen filename ModeW);;
  io (λ w,
    match files w !! filename with
    | None =>
      (Ok tt, World (<[filename := File true true []]> (files w))
                    (free_space w) (stdout w) (calls w) (sys_stdout w))
    | Some f =>
      if writable f then
        (Ok tt, World (<[filename := File (readable f) true []]> (files w))
                      (free_space w + length (data f))
                      (stdout w) (calls w) (sys_stdout w))
      else (Raise (PermissionError filename), w)
    end).

(** [f.write(content)] and the flush that closing the file performs.  The
    text is encoded first; a text that cannot be encoded raises and stores
    nothing.  When the device is too full, the bytes that fit are stored and
    the call raises. *)
Definition write (filename : string) (content : text) : IO unit :=
  log (EvWrite filename content);;
  match encode_utf8 content with
  | None => raise UnicodeEncodeError
  | Some bytes => io (λ w,
    let stored := take (free_space w) bytes in
    let w' :=
      World (alter (λ f, File (readable f) (writable f) stored) filename
               (files w))
            (free_space w - length stored) (stdout w) (calls w)
            (sys_stdout w) in
    if (length bytes <=? free_space w)%nat then (Ok tt, w')
    else (Raise NoSpaceError, w'))
  end.

(** [repr] of a path made of printable ASCII characters other than the
    quote and the backslash is the path between quotes. *)
Definition quotable (p : string) : bool :=
  forallb (λ a, let n := N_of_ascii a in
                (32 <=? n) && (n <=? 126) && negb (n =? 39) && negb (n =? 92))
          (list_ascii_of_string p).

(** [str(e)] where it is a fixed text: the errors of the operating system
    on a path that [repr] leaves as it is.  The messages of the codec and of
    [re] quote positions and parts of their input and are not spelled
    out. *)
Definition str_exn (e : exn) : option string :=
  match e with
  | FileNotFoundError p =>
    if quotable p
    then Some ("[Errno 2] No such file or directory: '" +:+ p +:+ "'")
    else None
  | PermissionError p =>
    if quotable p
    then Some ("[Errno 13] Permission denied: '" +:+ p +:+ "'")
    else None
  | NoSpaceError => Some "[Errno 28] No space left on device"
  | UnicodeDecodeError | UnicodeEncodeError | re_error => None
  end.

(** The characters of a line, where they are known. *)
Definition render (l : line) : option string :=
  match line_exn l with
  | None => Some (line_text l)
  | Some e => (λ message, line_text l +:+ message) <$> str_exn e
  end.

(** ** The script *)

(** The loop of [fix_file] (lines 15-16):
    [for pattern, replacement in fixes:
       content = re.sub(pattern, replacement, content, flags=re.MULTILINE)] *)
Fixpoint apply_fixes (fixes : list (text * text)) (content : text)
    : result text :=
  match fixes with
  | [] => Ok content
  | (pattern, replacement) :: fixes' =>
    content ← re.sub pattern replacement content 0 (re.Flags true);
    apply_fixes fixes' content
  end.

(** [fix_file] (lines 8-24).  The [try] block either returns [True] or falls
    through, in which case, as after the handler, [False] is returned. *)
Definition fix_file (filepath : string) (fixes : list (text * text))
    : IO bool :=
  returned ← try_except
    (f ← open_r filepath;
     content ← read filepath f;
     let original := content in
     content ← lift (apply_fixes fixes content);
     if bool_decide (content ≠ original) then
       open_w filepath;;
       write filepath content;;
       mret (Some true)
     else mret None)
    (λ e,
       print (Line ("Error fixing " +:+ filepath +:+ ": ") (Some e));;
       mret None);
  match returned with
  | Some b => mret b
  | None => mret false
  end.

(** The table (lines 27-76), in the order of the dictionary literal. *)
Definition file_fixes : list (string * list (text * text)) := [
  ("components/featured-verusids-carousel.tsx",
    [
     (str "const currentID = featuredIDs\[currentIndex\];",
      str "const currentID = featuredIDs[currentIndex];" ++ [LF; LF]
        ++ str "  if (!currentID) return null;")
    ]);
  ("components/charts/heatmap-calendar.tsx",
    [
     (str "toLocaleDateString\('en-US'",
      str "toLocaleDateString('en-US' as string");
     (str "const formattedDate = date;",
      str "const formattedDate = date || 'Unknown';")
    ]);
  ("components/interactive-charts.tsx",
    [
     (str "miningStats\.difficulty",
      str "miningStats?.difficulty");
     (str "miningStats\.networkHashrate",
      str "miningStats?.networkHashrate");
     (str "stakingStats\.apy",
      str "stakingStats?.apy")
    ]);
  ("components/moving-price-ticker.tsx",
    [
     (str "useEffect\(\(\) => \{",
      str "useEffect(() => {" ++ [LF]
        ++ str "      if (!currentPrice) return;");
     (str "currentPrice\.price",
      str "currentPrice?.price ?? 0")
    ]);
  ("components/pull-to-refresh.tsx",
    [
     (str "containerRef\.current\.scrollTop",
      str "containerRef.current?.scrollTop ?? 0")
    ]);
  ("components/quick-stats-ticker.tsx",
    [
     (str "networkStats\.connections",
      str "networkStats?.connections");
     (str "stakingStats\.networkWeight",
      str "stakingStats?.networkWeight")
    ]);
  ("components/ui/breadcrumb.tsx",
    [
     (str "firstItem\.label",
      str "firstItem?.label");
     (str "firstItem\.href",
      str "firstItem?.href")
    ]);
  ("components/i18n-error-boundary.tsx",
    [
     (str "override componentDidCatch",
      str "componentDidCatch")
    ]);
  ("components/blocks-explorer.tsx",
    [
     (str "calculateTemporalMetrics\(\s*block,",
      str "calculateTemporalMetrics(" ++ [LF]
        ++ str "                  block!,")
    ]);
  ("lib/cache/cache-utils.ts",
    [
     (str "result\?\.value\.headers",
      str "result?.value?.headers")
    ]);
  ("lib/database/secure-db-client.ts",
    [
     (str "this\.pool\.query",
      str "this.pool!.query")
    ]);
  ("lib/hooks/use-touch-gestures.ts",
    [
     (str "event\.touches\[0\]\.clientX",
      str "event.touches[0]?.clientX ?? 0");
     (str "event\.touches\[0\]\.clientY",
      str "event.touches[0]?.clientY ?? 0")
    ]);
  ("lib/i18n/utils.ts",
    [
     (str "code\.split\('-'\)\[0\]",
      str "code?.split('-')[0] || code || 'en'");
     (str "for \(const \{ code \} of languages\)",
      str "for (const { code } of languages) {" ++ [LF]
        ++ str "    if (!code) continue;")
    ])
].

(** [for x in l: body x]. *)
Fixpoint for_each {A} (l : list A) (body : A → IO unit) : IO unit :=
  match l with
  | [] => mret tt
  | x :: l' => body x;; for_each l' body
  end.

Definition newline : string := String "010" EmptyString.

(** The check mark U+2713 of line 81, as standard output carries it. *)
Definition check_mark : string :=
  String "226" (String "156" (String "147" EmptyString)).

(** The body of the driver loop (lines 80-81). *)
Definition driver_step (entry : string * list (text * text)) : IO unit :=
  let '(filepath, fixes) := entry in
  changed ← fix_file filepath fixes;
  if (changed : bool)
  then print (plain (check_mark +:+ " Fixed " +:+ filepath))
  else mret tt.

(** Lines 78-83 over any table: [for filepath, fixes in table.items()]
    visits the entries in insertion order. *)
Definition driver (table : list (string * list (text * text))) : IO unit :=
  print (plain "Applying intelligent fixes...");;
  for_each table driver_step;;
  print (plain (newline +:+ "Done!")).

Definition main : IO unit := driver file_fixes.

(** The exit status of the interpreter: 120 when the flush of standard
    output at exit fails; otherwise 0 when the module body ran to its end
    and 1 when an exception left it. *)
Definition exit_status (w : world) : option nat :=
  let r := main w in
  let status (code : nat) :=
    Some (if fails_at_exit (sys_stdout r.2) (stdout r.2) then 120%nat
          else code) in
  match r.1 with
  | Ok _ => status 0%nat
  | Raise _ => status 1%nat
  | Beyond _ => None
  end.

(** ** Specification vocabulary *)

(** What reading a file as text yields in a world: the outcome of lines
    11-12. *)
Definition read_text (w : world) (filepath : string) : result text :=
  match files w !! filepath with
  | None => Raise (FileNotFoundError filepath)
  | Some f =>
    if readable f then
      match decode_utf8 (data f) with
      | Some t => Ok (universal_newlines t)
      | None => Raise UnicodeDecodeError
      end
    else Raise (PermissionError filepath)
  end.

Definition logged (evs : list event) (w : world) : world :=
  World (files w) (free_space w) (stdout w) (calls w ++ evs) (sys_stdout w).

(** The diagnostic of line 23: the path, then the message of the
    exception. *)
Definition diagnostic (filepath : string) (e : exn) : line :=
  Line ("Error fixing " +:+ filepath +:+ ": ") (Some e).

(** The handler of lines 22-23 followed by line 24. *)
Definition report (filepath : string) (e : exn) : IO bool :=
  print (diagnostic filepath e);; mret false.

(** A stream that takes every line, and a line that is taken where the
    output stands. *)
Definition accepting (w : world) : Prop :=
  ∀ printed l, refuses (sys_stdout w) printed l = None.

Definition accepted (w : world) (l : line) : Prop :=
  refuses (sys_stdout w) (stdout w) l = None.

(** Lines 19-20 as one step. *)
Definition write_back (filepath : string) (content : text) : IO unit :=
  open_w filepath;; write filepath content.

(** The file system calls and the output a statement adds to a world. *)
Definition new_calls {A} (m : IO A) (w : world) : list event :=
  drop (length (calls w)) (calls (m w).2).

Definition new_output {A} (m : IO A) (w : world) : list line :=
  drop (length (stdout w)) (stdout (m w).2).

(** Whether lines 19-20 succeed in a world: the file must be writable, the
    text must have an encoding, and the encoding must fit on the device once
    the old content is gone. *)
Definition write_outcome (w : world) (filepath : string) (content : text)
    : result unit :=
  match files w !! filepath with
  | Some f =>
    if writable f then
      match encode_utf8 content with
      | Some bytes =>
        if (length bytes <=? free_space w + length (data f))%nat then Ok tt
        else Raise NoSpaceError
      | None => Raise UnicodeEncodeError
      end
    else Raise (PermissionError filepath)
  | None =>
    match encode_utf8 content with
    | Some bytes =>
      if (length bytes <=? free_space w)%nat then Ok tt
      else Raise NoSpaceError
    | None => Raise UnicodeEncodeError
    end
  end.

(** The three outcomes the specification names for a file, and a fourth:
    a rule of the file is outside the embedded fragment. *)
Inductive outcome :=
| Fixed
| Unchanged
| Failed (e : exn)
| Outside (what : string).

Definition outcome_of (w : world) (filepath : string)
    (fixes : list (text * text)) : outcome :=
  match read_text w filepath with
  | Raise e => Failed e
  | Beyond what => Outside what
  | Ok original =>
    match apply_fixes fixes original with
    | Raise e => Failed e
    | Beyond what => Outside what
    | Ok content =>
      if decide (content = original) then Unchanged
      else
        match write_outcome w filepath content with
        | Ok _ => Fixed
        | Raise e => Failed e
        | Beyond what => Outside what
        end
    end
  end.

Definition fixed_line (filepath : string) : line :=
  plain (check_mark +:+ " Fixed " +:+ filepath).

Definition status_lines (filepath : string) (o : outcome) : list line :=
  match o with
  | Fixed => [fixed_line filepath]
  | Failed e => [diagnostic filepath e]
  | Unchanged | Outside _ => []
  end.

(** What a round of the loop comes to and prints, by the outcome for its
    file: the line of the outcome, if there is one and the stream takes
    it. *)
Definition round (w : world) (filepath : string) (o : outcome)
    : result unit * list line :=
  match o with
  | Outside what => (Beyond what, [])
  | _ =>
    match status_lines filepath o with
    | [] => (Ok tt, [])
    | l :: _ =>
      match refuses (sys_stdout w) (stdout w) l with
      | None => (Ok tt, [l])
      | Some e => (Raise e, [])
      end
    end
  end.

(** What [fix_file] returns and prints for each outcome, and the first and
    the last line of a run. *)
Definition changed_flag (o : outcome) : bool :=
  match o with
  | Fixed => true
  | _ => false
  end.

Definition diagnostics (filepath : string) (o : outcome) : list line :=
  match o with
  | Failed e => [diagnostic filepath e]
  | _ => []
  end.

Definition header : line := plain "Applying intelligent fixes...".
Definition completion : line := plain (newline +:+ "Done!").

(** The calls one table entry gives rise to. *)
Inductive file_block (filepath : string) (fixes : list (text * text))
    : list event → Prop :=
| block_unreadable :
    file_block filepath fixes [EvOpen filepath ModeR]
| block_kept original :
    (∀ content, apply_fixes fixes original = Ok content →
                content = original) →
    file_block filepath fixes
      [EvOpen filepath ModeR; EvRead filepath original]
| block_denied original content :
    apply_fixes fixes original = Ok content →
    content ≠ original →
    file_block filepath fixes
      [EvOpen filepath ModeR; EvRead filepath original;
       EvOpen filepath ModeW]
| block_written original content :
    apply_fixes fixes original = Ok content →
    content ≠ original →
    file_block filepath fixes
      [EvOpen filepath ModeR; EvRead filepath original;
       EvOpen filepath ModeW; EvWrite filepath content].

Definition event_path (e : event) : string :=
  match e with
  | EvOpen p _ => p
  | EvRead p _ => p
  | EvWrite p _ => p
  end.

Definition is_rewrite (filepath : string) (e : event) : bool :=
  match e with
  | EvOpen p ModeW => bool_decide (p = filepath)
  | _ => false
  end.

(** How often a log opens a file for writing. *)
Fixpoint count_rewrites (filepath : string) (evs : list event) : nat :=
  match evs with
  | [] => 0
  | e :: evs' =>
    ((if is_rewrite filepath e then 1 else 0)
     + count_rewrites filepath evs')%nat
  end.

(** One rule of a table, as [fix_file] applies it. *)
Definition apply_rule (rule : text * text) (content : text) : result text :=
  re.sub rule.1 rule.2 content 0 (re.Flags true).

(** A pattern that is found nowhere in a text. *)
Definition no_match (pattern content : text) : Prop :=
  re.search pattern content (re.Flags true) = Ok None.

(** ** What a substitution is: the specification of [re.sub] *)

(** The character before the position a match ends at. *)
Definition prev_after (prev : option N) (matched : text) : option N :=
  match last matched with
  | Some c => Some c
  | None => prev
  end.

(** [Subst fl r rep prev must_advance s out]: [out] is [s] with every
    non-overlapping match of [r], taken from left to right, replaced by what
    [rep] makes of the matched text and its groups.  A character is copied
    only where no match starts; a match is replaced and the search goes on
    where it ends; an empty match is replaced and the search goes on at the
    same place for a non-empty one. *)
Inductive Subst (fl : re.flags) (r : re.regex)
    (rep : text → gmap nat text → text)
    : option N → bool → text → text → Prop :=
| Subst_end prev ma :
    re.match_here fl r prev [] ma = None →
    Subst fl r rep prev ma [] []
| Subst_copy prev ma c s out :
    re.match_here fl r prev (c :: s) ma = None →
    Subst fl r rep (Some c) false s out →
    Subst fl r rep prev ma (c :: s) (c :: out)
| Subst_empty prev s caps out :
    re.match_here fl r prev s false = Some (O, caps) →
    Subst fl r rep prev true s out →
    Subst fl r rep prev false s (rep [] caps ++ out)
| Subst_match prev ma s n caps out :
    re.match_here fl r prev s ma = Some (S n, caps) →
    Subst fl r rep (prev_after prev (take (S n) s)) false (drop (S n) s) out →
    Subst fl r rep prev ma s (rep (take (S n) s) caps ++ out).

(** A text with [x] put at the start of every line: at the start of the
    text and after every newline; and with [x] put at the end of every line:
    before every newline and at the end of the text. *)
Fixpoint after_newlines (x s : text) : text :=
  match s with
  | [] => []
  | c :: s' => c :: (if c =? LF then x else []) ++ after_newlines x s'
  end.

Definition at_line_starts (x s : text) : text := x ++ after_newlines x s.

Fixpoint at_line_ends (x s : text) : text :=
  match s with
  | [] => x
  | c :: s' => (if c =? LF then x else []) ++ c :: at_line_ends x s'
  end.

(** A matcher moves forward when every result it gives comes from its
    continuation, called on a state that has no more of the subject left
    than the state it started from. *)
Definition forward (body : re.cont → re.cont) : Prop :=
  ∀ k st res,
    body k st = Some res →
    ∃ st', (length (re.ms_rest st') ≤ length (re.ms_rest st))%nat
           ∧ k st' = Some res.

(** The pattern that matches a text literally. *)
Definition lit (l : text) : re.regex :=
  fold_right (λ c r, re.RSeq (re.RChar c) r) re.REmpty l.

(** A text that occurs in another. *)
Definition occurs_in (l s : text) : Prop := ∃ pre post, s = pre ++ l ++ post.

(** ** Sample worlds *)

Definition bytes_of (s : string) : list byte := list_byte_of_string s.

(** A terminal that takes every line. *)
Definition terminal : stream := Stream (λ _ _, None) (λ _, false).

Definition is_ascii (s : string) : bool :=
  forallb (λ a, N_of_ascii a <? 128) (list_ascii_of_string s).

(** A stream whose encoding is ASCII, as under [PYTHONIOENCODING=ascii]: it
    refuses a line when the text the script writes, or the path that an
    error of the operating system quotes, holds any other character. *)
Definition ascii_stream : stream :=
  Stream
    (λ _ l,
       if is_ascii (line_text l)
          && match line_exn l with
             | Some (FileNotFoundError p) | Some (PermissionError p) =>
               is_ascii p
             | _ => true
             end
       then None else Some UnicodeEncodeError)
    (λ _, false).

(** Standard output redirected to a device that is full: the lines stay in
    the buffer of the stream, which is larger than all the script prints,
    and the flush at exit fails if there are any. *)
Definition full_device : stream :=
  Stream (λ _ _, None)
         (λ printed, match printed with [] => false | _ :: _ => true end).

(** A world with one readable and writable file. *)
Definition one_file (filepath content : string) (free : nat) : world :=
  World {[ filepath := File true true (bytes_of content) ]} free [] []
        terminal.

(** The same world with another stream behind standard output. *)
Definition with_stdout (s : stream) (w : world) : world :=
  World (files w) (free_space w) (stdout w) (calls w) s.

(** The first entry of the table and a file for it. *)
Definition carousel : string := "components/featured-verusids-carousel.tsx".

Definition carousel_fixes : list (text * text) :=
  match file_fixes with
  | (_, fixes) :: _ => fixes
  | [] => []
  end.

Definition current_line : string :=
  "const currentID = featuredIDs[currentIndex];".

Definition guard_line : string := "  if (!currentID) return null;".

(** What the rule of the first entry puts in place of [current_line]. *)
Definition patched_lines : text :=
  str current_line ++ [LF; LF] ++ str guard_line.

Definition carousel_source : string :=
  "  " +:+ current_line +:+ newline +:+ "  return currentID.name;" +:+ newline.

Definition carousel_world : world := one_file carousel carousel_source 4096.

(** The same file on a device with ten bytes left. *)
Definition full_disk_world : world := one_file carousel carousel_source 10.


(** A table of one rule whose replacement holds no match of its pattern, and
    a file for it. *)
Definition ab_table : list (string * list (text * text)) :=
  [("f.ts", [(str "ab", str "b")])].

Definition ab_world : world := one_file "f.ts" "aab" 4096.

(** The eleventh entry of the table alone, and a file for it. *)
Definition pool_table : list (string * list (text * text)) :=
  [("lib/database/secure-db-client.ts",
    [(str "this\.pool\.query", str "this.pool!.query")])].

Definition pool_world : world :=
  one_file "lib/database/secure-db-client.ts"
           "return await this.pool.query(sql);" 4096.

(** The first file of the table on a stream that is ASCII only, and on a
    device that is full. *)
Definition ascii_world : world := with_stdout ascii_stream carousel_world.

Definition full_device_world : world := with_stdout full_device carousel_world.

(** A path with a character outside ASCII, [caf\u00e9.ts] in UTF-8; a file
    at that path in which [zzz] is not found; and a rule whose pattern is
    [zzz] and whose template does not compile. *)
Definition cafe : string :=
  "caf" +:+ String "195" (String "169" EmptyString) +:+ ".ts".

Definition cafe_world : world :=
  with_stdout ascii_stream (one_file cafe "abc" 4096).

Definition broken_template : list (text * text) := [(str "zzz", str "\q")].

Definition cafe_table : list (string * list (text * text)) :=
  [(cafe, broken_template)].

(** The first file of the table with the line endings of Windows. *)
Definition crlf_world : world :=
  one_file carousel
    ("  " +:+ current_line +:+ String "013" newline
     +:+ "  return currentID.name;" +:+ String "013" newline)
    4096.

(** A path is relative when it does not start with a slash. *)
Definition is_relative (filepath : string) : bool :=
  match filepath with
  | String c _ => negb (Ascii.eqb c "/")
  | EmptyString => true
  end.

(** The code points a file can hold: all but the surrogates. *)
Definition is_scalar (c : N) : bool :=
  (c <? 55296) || ((57343 <? c) && (c <? 1114112)).

(** A replacement without a backslash: [re.sub] inserts it as it is. *)
Definition is_literal (repl : text) : bool :=
  forallb (λ c, negb (c =? chr "\")) repl.

(** A rule whose pattern and template both compile. *)
Definition rule_compiles (rule : text * text) : bool :=
  match re.compile rule.1 with
  | Ok (_, groups) =>
    match re.compile_template groups rule.2 with
    | Ok _ => true
    | _ => false
    end
  | _ => false
  end.

(** A rule inside the embedded fragment: its pattern compiles or raises,
    and so does its template. *)
Definition in_fragment (rule : text * text) : bool :=
  match re.compile rule.1 with
  | Ok (_, groups) =>
    match re.compile_template groups rule.2 with
    | Beyond _ => false
    | _ => true
    end
  | Raise _ => true
  | Beyond _ => false
  end.

(** A table all of whose rules are inside the fragment. *)
Definition within_fragment (table : list (string * list (text * text)))
    : Prop :=
  Forall (λ entry, Forall (λ rule, in_fragment rule = true) entry.2) table.

(** A character that a file can hold and that reading gives back as it is:
    a code point that is no surrogate and no carriage return. *)
Definition storable (c : N) : bool := is_scalar c && negb (c =? CR).

(** A rule whose replacement is inserted as it is and is made of such
    characters. *)
Definition tame (rule : text * text) : bool :=
  is_literal rule.2 && forallb storable rule.2.


(** The permissions of the file at a path, if there is one. *)
Definition permissions (w : world) (filepath : string)
    : option (bool * bool) :=
  (λ f, (readable f, writable f)) <$> files w !! filepath.

(** Membership in a list that is written out. *)
Ltac elem_cases H :=
  repeat (apply elem_of_cons in H as [H|H]);
  try (by apply elem_of_nil in H); try discriminate H.

Ltac elem_here :=
  first [ apply elem_of_app; left; solve [repeat constructor]
        | solve [repeat constructor] ].

(** Turns the boolean comparisons of the context into arithmetic facts. *)
Ltac bool_N :=
  repeat match goal with
  | H : (_ && _) = true |- _ => apply andb_true_iff in H as [? ?]
  | H : (_ <? _) = true |- _ => apply N.ltb_lt in H
  | H : (_ <? _) = false |- _ => apply N.ltb_ge in H
  | H : (_ <=? _) = true |- _ => apply N.leb_le in H
  | H : (_ <=? _) = false |- _ => apply N.leb_gt in H
  | H : (_ =? _) = true |- _ => apply N.eqb_eq in H
  | H : (_ =? _) = false |- _ => apply N.eqb_neq in H
  end.

(** Case analysis on whatever a goal branches on. *)
Ltac branch :=
  match goal with
  | |- context [match ?x with _ => _ end] => destruct x eqn:?
  end.

(** Linear arithmetic with division and remainder by constants. *)
Ltac div_lia := zify; Z.to_euclidean_division_equations; lia.

(** Unfolds the primitives and the monad in a goal about a run. *)
Ltac io_run :=
  unfold report, write_back, open_w, write, open_r, read, print, log, raise,
    lift, io, mbind, IO_bind, mret, IO_ret;
  simpl.

(** ** Basic facts about the monad and the primitives *)

Lemma bind_run {A B} (m : IO A) (f : A → IO B) (w : world) :
  (m ≫= f) w =
  match m w with
  | (Ok a, w') => f a w'
  | (Raise e, w') => (Raise e, w')
  | (Beyond what, w') => (Beyond what, w')
  end.
Proof. reflexivity. Qed.

Lemma read_run {B} filepath (k : text → IO B) w :
  (open_r filepath ≫= λ f, read filepath f ≫= k) w =
  match read_text w filepath with
  | Ok content =>
    k content (logged [EvOpen filepath ModeR; EvRead filepath content] w)
  | Raise e => (Raise e, logged [EvOpen filepath ModeR] w)
  | Beyond what => (Beyond what, logged [EvOpen filepath ModeR] w)
  end.
Proof.
  unfold read_text, open_r, read, io, log.
  rewrite !bind_run. simpl.
  destruct (files w !! filepath) as [f|]; [|reflexivity].
  destruct (readable f); [|reflexivity].
  rewrite bind_run.
  destruct (decode_utf8 (data f)) as [t|]; [|reflexivity].
  rewrite bind_run. simpl. unfold logged. simpl.
  by rewrite <- app_assoc.
Qed.

Lemma read_text_decided w filepath what :
  read_text w filepath ≠ Beyond what.
Proof.
  unfold read_text.
  destruct (files w !! filepath) as [f|]; [|done].
  destruct (readable f); [|done].
  by destruct (decode_utf8 (data f)).
Qed.

(** The handler either prints its line and gives [False], or the stream
    refuses the line and the exception of the stream leaves [fix_file]. *)
Lemma report_run filepath e w :
  report filepath e w =
  match refuses (sys_stdout w) (stdout w) (diagnostic filepath e) with
  | Some e' => (Raise e', w)
  | None =>
    (Ok false,
     World (files w) (free_space w) (stdout w ++ [diagnostic filepath e])
           (calls w) (sys_stdout w))
  end.
Proof.
  unfold report, print. rewrite bind_run.
  by destruct (refuses _ _ _).
Qed.

Lemma fix_file_run filepath fixes w :
  fix_file filepath fixes w =
  match read_text w filepath with
  | Raise e => report filepath e (logged [EvOpen filepath ModeR] w)
  | Beyond what => (Beyond what, logged [EvOpen filepath ModeR] w)
  | Ok original =>
    let w1 := logged [EvOpen filepath ModeR; EvRead filepath original] w in
    match apply_fixes fixes original with
    | Raise e => report filepath e w1
    | Beyond what => (Beyond what, w1)
    | Ok content =>
      if decide (content = original) then (Ok false, w1)
      else
        match write_back filepath content w1 with
        | (Ok _, w2) => (Ok true, w2)
        | (Raise e, w2) => report filepath e w2
        | (Beyond what, w2) => (Beyond what, w2)
        end
    end
  end.
Proof.
  assert (∀ e w',
            ((print (Line ("Error fixing " +:+ filepath +:+ ": ") (Some e));;
              mret None) ≫=
             (λ returned : option bool,
                match returned with
                | Some b => mret b
                | None => mret false
                end)) w'
            = report filepath e w') as Hh.
  { intros e w'. rewrite report_run. unfold print. rewrite !bind_run.
    unfold diagnostic. by destruct (refuses _ _ _). }
  unfold fix_file.
  rewrite bind_run. unfold try_except. rewrite read_run.
  destruct (read_text w filepath) as [c|e|what]; [| |reflexivity].
  2: { specialize (Hh e (logged [EvOpen filepath ModeR] w)).
       rewrite bind_run in Hh. exact Hh. }
  cbn zeta. rewrite bind_run. unfold lift at 1.
  set (w1 := logged _ w).
  destruct (apply_fixes fixes c) as [content|e|what]; [| |reflexivity].
  2: { specialize (Hh e w1). rewrite bind_run in Hh. exact Hh. }
  unfold write_back.
  destruct (decide (content = c)) as [->|Hne].
  - rewrite bool_decide_eq_false_2 by naive_solver. reflexivity.
  - rewrite bool_decide_eq_true_2 by done.
    rewrite !bind_run.
    destruct (open_w filepath w1) as [[[]|e|what] w2]; [| |reflexivity].
    2: { specialize (Hh e w2). rewrite bind_run in Hh. exact Hh. }
    rewrite bind_run.
    destruct (write filepath content w2) as [[[]|e|what] w3];
      [reflexivity| |reflexivity].
    specialize (Hh e w3). rewrite bind_run in Hh. exact Hh.
Qed.

Lemma write_back_outcome filepath content w :
  (write_back filepath content w).1 = write_outcome w filepath content.
Proof.
  unfold write_outcome. io_run.
  destruct (files w !! filepath) as [f|].
  - destruct (writable f); [|reflexivity].
    destruct (encode_utf8 content) as [bytes|]; [|reflexivity].
    simpl. destruct (length bytes <=? _)%nat; reflexivity.
  - destruct (encode_utf8 content) as [bytes|]; [|reflexivity].
    simpl. destruct (length bytes <=? _)%nat; reflexivity.
Qed.

Lemma write_outcome_decided w filepath content what :
  write_outcome w filepath content ≠ Beyond what.
Proof.
  unfold write_outcome.
  destruct (files w !! filepath) as [f|].
  - destruct (writable f); [|done].
    destruct (encode_utf8 content) as [bytes|]; [|done].
    by destruct (length bytes <=? _)%nat.
  - destruct (encode_utf8 content) as [bytes|]; [|done].
    by destruct (length bytes <=? _)%nat.
Qed.

(** What [write_back] leaves behind, whatever its outcome: the output is
    untouched, other files are untouched, and the log grows by the [open] and,
    if that succeeded, the [write]. *)
Lemma write_back_frame filepath content w :
  let w' := (write_back filepath content w).2 in
  stdout w' = stdout w
  ∧ sys_stdout w' = sys_stdout w
  ∧ (∀ q, q ≠ filepath → files w' !! q = files w !! q)
  ∧ (calls w' = calls w ++ [EvOpen filepath ModeW]
     ∨ calls w' = calls w ++ [EvOpen filepath ModeW;
                              EvWrite filepath content]).
Proof.
  io_run.
  destruct (files w !! filepath) as [f|].
  - destruct (writable f); simpl; [|by auto].
    destruct (encode_utf8 content) as [bytes|]; simpl.
    + destruct (length bytes <=? _)%nat; simpl;
        (split; [done|]; split; [done|]; split;
         [|right; by rewrite <- app_assoc]);
        intros q Hq; by rewrite lookup_alter_ne, lookup_insert_ne.
    + split; [done|]. split; [done|].
      split; [|right; by rewrite <- app_assoc].
      intros q Hq. by rewrite lookup_insert_ne.
  - destruct (encode_utf8 content) as [bytes|]; simpl.
    + destruct (length bytes <=? _)%nat; simpl;
        (split; [done|]; split; [done|]; split;
         [|right; by rewrite <- app_assoc]);
        intros q Hq; by rewrite lookup_alter_ne, lookup_insert_ne.
    + split; [done|]. split; [done|].
      split; [|right; by rewrite <- app_assoc].
      intros q Hq. by rewrite lookup_insert_ne.
Qed.

(** A write that goes through stores exactly the encoding of the text. *)
Lemma write_back_ok filepath content w f bytes :
  files w !! filepath = Some f →
  writable f = true →
  encode_utf8 content = Some bytes →
  (length bytes ≤ free_space w + length (data f))%nat →
  write_back filepath content w =
  (Ok tt,
   World (<[filepath := File (readable f) true bytes]> (files w))
         (free_space w + length (data f) - length bytes)
         (stdout w)
         (calls w ++ [EvOpen filepath ModeW; EvWrite filepath content])
         (sys_stdout w)).
Proof.
  intros Hf Hw He Hlen. io_run. rewrite Hf, Hw, He. simpl.
  rewrite (proj2 (Nat.leb_le _ _) Hlen).
  rewrite take_ge by done.
  rewrite alter_insert_eq. simpl. by rewrite <- app_assoc.
Qed.

Lemma new_output_app {A} (m : IO A) w lines :
  stdout (m w).2 = stdout w ++ lines → new_output m w = lines.
Proof. unfold new_output. intros ->. by rewrite drop_app_length. Qed.

Lemma new_calls_app {A} (m : IO A) w evs :
  calls (m w).2 = calls w ++ evs → new_calls m w = evs.
Proof. unfold new_calls. intros ->. by rewrite drop_app_length. Qed.

(** ** [fix_file], case by case *)

(** What [fix_file] comes to and what it prints, which calls it makes and
    which files it leaves alone.  It raises only when the stream refuses the
    diagnostic. *)
Lemma fix_file_effect filepath fixes w :
  let r := fix_file filepath fixes w in
  sys_stdout r.2 = sys_stdout w
  ∧ (∀ q, q ≠ filepath → files r.2 !! q = files w !! q)
  ∧ (∃ block, calls r.2 = calls w ++ block ∧ file_block filepath fixes block)
  ∧ match outcome_of w filepath fixes with
    | Fixed => r.1 = Ok true ∧ stdout r.2 = stdout w
    | Unchanged => r.1 = Ok false ∧ stdout r.2 = stdout w
    | Failed e =>
      match refuses (sys_stdout w) (stdout w) (diagnostic filepath e) with
      | None =>
        r.1 = Ok false ∧ stdout r.2 = stdout w ++ [diagnostic filepath e]
      | Some e' => r.1 = Raise e' ∧ stdout r.2 = stdout w
      end
    | Outside what => r.1 = Beyond what ∧ stdout r.2 = stdout w
    end.
Proof.
  cbn zeta. rewrite fix_file_run. unfold outcome_of.
  destruct (read_text w filepath) as [original|e|what] eqn:Hread; simpl.
  2: { rewrite report_run. simpl.
       destruct (refuses _ _ _); simpl;
         repeat split; eauto using file_block. }
  2: { by apply read_text_decided in Hread. }
  destruct (apply_fixes fixes original) as [content|e|what] eqn:Happ; simpl.
  2: { rewrite report_run. simpl.
       destruct (refuses _ _ _); simpl; repeat split; eauto;
         (eexists; split; [done|]; apply block_kept; congruence). }
  2: { repeat split; eauto.
       eexists; split; [done|]. apply block_kept. congruence. }
  destruct (decide (content = original)) as [->|Hne]; simpl.
  { repeat split; eauto.
    eexists; split; [done|]. apply block_kept. congruence. }
  set (w1 := logged _ w).
  pose proof (write_back_outcome filepath content w1) as Hout.
  pose proof (write_back_frame filepath content w1) as (Hs & Hss & Hfr & Hc).
  change (write_outcome w1 filepath content)
    with (write_outcome w filepath content) in Hout.
  destruct (write_back filepath content w1) as [[[]|e|what] w2]; simpl in *;
    rewrite <- Hout; simpl.
  - split; [done|]. split; [done|]. split; [|done].
    destruct Hc as [-> | ->]; rewrite <- app_assoc; simpl;
      eexists; (split; [done|]); eauto using file_block.
  - rewrite report_run, Hs, Hss. simpl.
    destruct (refuses _ _ _); simpl; rewrite ?Hs;
      (split; [done|]; split; [done|]; split; [|done]);
      destruct Hc as [-> | ->]; rewrite <- app_assoc; simpl;
      eexists; (split; [done|]); eauto using file_block.
  - symmetry in Hout. by apply write_outcome_decided in Hout.
Qed.

Lemma driver_step_effect filepath fixes w :
  let r := driver_step (filepath, fixes) w in
  let o := outcome_of w filepath fixes in
  sys_stdout r.2 = sys_stdout w
  ∧ (∀ q, q ≠ filepath → files r.2 !! q = files w !! q)
  ∧ (∃ block, calls r.2 = calls w ++ block ∧ file_block filepath fixes block)
  ∧ r.1 = (round w filepath o).1
  ∧ stdout r.2 = stdout w ++ (round w filepath o).2.
Proof.
  cbn zeta. unfold driver_step. rewrite bind_run.
  pose proof (fix_file_effect filepath fixes w) as (Hss & Hf & Hc & Ho).
  cbn zeta in *.
  destruct (fix_file filepath fixes w) as [r w']. simpl in *.
  destruct (outcome_of w filepath fixes) as [| |e|what]; simpl in *.
  - destruct Ho as [-> Hs]. unfold print, fixed_line. simpl.
    rewrite Hss, Hs.
    destruct (refuses _ _ _); simpl; rewrite ?app_nil_r; auto.
  - destruct Ho as [-> Hs]. simpl. rewrite Hs, app_nil_r. auto.
  - destruct (refuses _ _ _); destruct Ho as [-> Hs]; simpl;
      rewrite Hs, ?app_nil_r; auto.
  - destruct Ho as [-> Hs]. simpl. rewrite Hs, app_nil_r. auto.
Qed.

Lemma round_done w filepath o :
  (round w filepath o).1 = Ok tt →
  (round w filepath o).2 = status_lines filepath o.
Proof.
  unfold round. destruct o; simpl; try done;
    by destruct (refuses _ _ _).
Qed.

Lemma round_stopped w filepath o :
  (round w filepath o).1 ≠ Ok tt → (round w filepath o).2 = [].
Proof.
  unfold round. destruct o; simpl; try done;
    by destruct (refuses _ _ _).
Qed.

(** ** The driver loop *)

Lemma for_each_cons {A} (x : A) l (body : A → IO unit) w :
  for_each (x :: l) body w =
  match body x w with
  | (Ok _, w') => for_each l body w'
  | (Raise e, w') => (Raise e, w')
  | (Beyond what, w') => (Beyond what, w')
  end.
Proof. reflexivity. Qed.

(** The loop goes through the entries in order until a round raises.  The
    log is made of the blocks of the entries gone through, the output of
    their lines; when the loop returns, all entries were gone through. *)
Lemma driver_loop_effect table w :
  let r := for_each table driver_step w in
  sys_stdout r.2 = sys_stdout w
  ∧ (∀ q, q ∉ table.*1 → files r.2 !! q = files w !! q)
  ∧ (∃ n blocks,
       calls r.2 = calls w ++ concat blocks
       ∧ Forall2 (λ entry block, file_block entry.1 entry.2 block)
           (take n table) blocks
       ∧ (r.1 = Ok tt → n = length table))
  ∧ (∃ outcomes lines,
       length outcomes = length table
       ∧ stdout r.2 = stdout w ++ lines
       ∧ lines `prefix_of` concat (zip_with status_lines table.*1 outcomes)
       ∧ (r.1 = Ok tt →
          lines = concat (zip_with status_lines table.*1 outcomes))).
Proof.
  revert w. induction table as [|[filepath fixes] table IH]; intros w.
  - simpl. split; [done|]. split; [done|]. split.
    + exists 0%nat, []. simpl. rewrite app_nil_r. by repeat constructor.
    + exists [], []. simpl. by rewrite app_nil_r.
  - cbn zeta. rewrite for_each_cons.
    pose proof (driver_step_effect filepath fixes w)
      as (Hss & Hf & (block & Hc & Hb) & Hr & Hs).
    cbn zeta in *.
    assert (∀ q, q ∉ ((filepath, fixes) :: table).*1 →
                 q ≠ filepath ∧ q ∉ table.*1) as Hq
      by (intros q Hq; simpl in Hq; by apply not_elem_of_cons in Hq).
    assert (∀ (x : result unit) w1,
              x ≠ Ok tt →
              (driver_step (filepath, fixes) w) = (x, w1) →
              sys_stdout w1 = sys_stdout w
              ∧ (∀ q, q ∉ ((filepath, fixes) :: table).*1 →
                      files w1 !! q = files w !! q)
              ∧ (∃ n blocks,
                   calls w1 = calls w ++ concat blocks
                   ∧ Forall2 (λ entry block,
                                file_block entry.1 entry.2 block)
                       (take n ((filepath, fixes) :: table)) blocks
                   ∧ (x = Ok tt → n = length ((filepath, fixes) :: table)))
              ∧ (∃ outcomes lines,
                   length outcomes = length ((filepath, fixes) :: table)
                   ∧ stdout w1 = stdout w ++ lines
                   ∧ lines `prefix_of`
                       concat (zip_with status_lines
                                 ((filepath, fixes) :: table).*1 outcomes)
                   ∧ (x = Ok tt →
                      lines = concat (zip_with status_lines
                                ((filepath, fixes) :: table).*1 outcomes))))
      as Hstop.
    { intros x w1 Hx Heq. rewrite Heq in *. simpl in *.
      split; [done|]. split; [intros q Hq'; apply Hf; by apply Hq|]. split.
      - exists 1%nat, [block]. simpl. rewrite app_nil_r, take_0.
        split; [done|]. split; [by repeat constructor|done].
      - exists (replicate (S (length table)) Unchanged), [].
        rewrite length_replicate. split; [done|].
        rewrite Hs, round_stopped by congruence.
        split; [done|]. split; [apply prefix_nil|done]. }
    destruct (driver_step (filepath, fixes) w) as [[[]|e|what] w1] eqn:Hstep;
      [|by apply Hstop|by apply Hstop].
    clear Hstop. simpl in Hss, Hf, Hc, Hr, Hs.
    rewrite round_done in Hs by done.
    destruct (IH w1)
      as (Hss' & Hf' & (n & blocks & Hc' & Hbs & Hn)
          & outcomes & lines & Hlen & Hs' & Hpre & Hall).
    split; [congruence|]. split; [|split].
    + intros q [Hne Hq']%Hq. rewrite Hf' by done. by apply Hf.
    + exists (S n), (block :: blocks). simpl. split; [|split].
      * by rewrite Hc', Hc, <- app_assoc.
      * by constructor.
      * intros Hok. by rewrite Hn.
    + exists (outcome_of w filepath fixes :: outcomes),
             (status_lines filepath (outcome_of w filepath fixes) ++ lines).
      simpl. split; [by rewrite Hlen|]. split; [|split].
      * by rewrite Hs', Hs, <- app_assoc.
      * by apply prefix_app.
      * intros Hok. by rewrite Hall.
Qed.

Lemma print_run l w :
  print l w =
  match refuses (sys_stdout w) (stdout w) l with
  | Some e => (Raise e, w)
  | None =>
    (Ok tt, World (files w) (free_space w) (stdout w ++ [l]) (calls w)
                  (sys_stdout w))
  end.
Proof. reflexivity. Qed.

Lemma driver_run table w :
  driver table w =
  match print header w with
  | (Ok _, w0) =>
    match for_each table driver_step w0 with
    | (Ok _, w1) => print completion w1
    | (Raise e, w1) => (Raise e, w1)
    | (Beyond what, w1) => (Beyond what, w1)
    end
  | (Raise e, w0) => (Raise e, w0)
  | (Beyond what, w0) => (Beyond what, w0)
  end.
Proof. reflexivity. Qed.

Lemma driver_effect table w :
  let r := driver table w in
  sys_stdout r.2 = sys_stdout w
  ∧ (∀ q, q ∉ table.*1 → files r.2 !! q = files w !! q)
  ∧ (∃ n blocks,
       calls r.2 = calls w ++ concat blocks
       ∧ Forall2 (λ entry block, file_block entry.1 entry.2 block)
           (take n table) blocks
       ∧ (r.1 = Ok tt → n = length table))
  ∧ (∃ outcomes lines,
       length outcomes = length table
       ∧ stdout r.2 = stdout w ++ lines
       ∧ lines `prefix_of`
           [header] ++ concat (zip_with status_lines table.*1 outcomes)
           ++ [completion]
       ∧ (r.1 = Ok tt →
          lines = [header] ++ concat (zip_with status_lines table.*1 outcomes)
                  ++ [completion])).
Proof.
  cbn zeta. rewrite driver_run, print_run.
  destruct (refuses (sys_stdout w) (stdout w) header) as [e|].
  { simpl. split; [done|]. split; [done|]. split.
    - exists 0%nat, []. simpl. rewrite app_nil_r. by repeat constructor.
    - exists (replicate (length table) Unchanged), [].
      rewrite length_replicate, app_nil_r.
      split; [done|]. split; [done|]. split; [apply prefix_nil|done]. }
  set (w0 := World (files w) (free_space w) _ (calls w) _).
  destruct (driver_loop_effect table w0)
    as (Hss & Hf & (n & blocks & Hc & Hbs & Hn)
        & outcomes & lines & Hlen & Hs & Hpre & Hall).
  cbn zeta in *.
  destruct (for_each table driver_step w0) as [[[]|e|what] w1];
    simpl in Hss, Hf, Hc, Hn, Hs, Hall.
  - rewrite print_run.
    destruct (refuses (sys_stdout w1) (stdout w1) completion) as [e|]; simpl.
    + split; [done|]. split; [done|]. split; [by exists n, blocks|].
      exists outcomes, ([header] ++ lines).
      split; [done|]. split; [by rewrite Hs, <- app_assoc|].
      split; [|done].
      exists [completion]. rewrite Hall by done. by rewrite <- app_assoc.
    + split; [done|]. split; [done|]. split; [by exists n, blocks|].
      exists outcomes, ([header] ++ lines ++ [completion]).
      split; [done|]. split; [by rewrite Hs, <- !app_assoc|].
      rewrite Hall by done. done.
  - simpl. split; [done|]. split; [done|]. split.
    + exists n, blocks. by repeat split.
    + exists outcomes, ([header] ++ lines).
      split; [done|]. split; [by rewrite Hs, <- app_assoc|].
      split; [|done]. destruct Hpre as [k ->].
      exists (k ++ [completion]). by rewrite <- !app_assoc.
  - simpl. split; [done|]. split; [done|]. split.
    + exists n, blocks. by repeat split.
    + exists outcomes, ([header] ++ lines).
      split; [done|]. split; [by rewrite Hs, <- app_assoc|].
      split; [|done]. destruct Hpre as [k ->].
      exists (k ++ [completion]). by rewrite <- !app_assoc.
Qed.

(** ** Runs that come to an end *)

Lemma sub_decided pattern repl content count fl what :
  in_fragment (pattern, repl) = true →
  re.sub pattern repl content count fl ≠ Beyond what.
Proof.
  unfold in_fragment, re.sub. simpl.
  destruct (re.compile pattern) as [[r groups]|e|s]; simpl; try done.
  by destruct (re.compile_template groups repl).
Qed.

Lemma apply_fixes_decided fixes content what :
  Forall (λ rule, in_fragment rule = true) fixes →
  apply_fixes fixes content ≠ Beyond what.
Proof.
  intros Hall. revert content.
  induction Hall as [|[pattern repl] fixes Hin _ IH]; intros content; simpl.
  - done.
  - pose proof (sub_decided pattern repl content 0 (re.Flags true)) as Hd.
    destruct (re.sub pattern repl content 0 _) as [content'|e|s]; simpl.
    + apply IH.
    + done.
    + intros [= <-]. by apply (Hd s).
Qed.

Lemma outcome_decided w filepath fixes what :
  Forall (λ rule, in_fragment rule = true) fixes →
  outcome_of w filepath fixes ≠ Outside what.
Proof.
  intros Hall. unfold outcome_of.
  pose proof (read_text_decided w filepath) as Hr.
  destruct (read_text w filepath) as [original|e|s]; [|done|by destruct (Hr s)].
  pose proof (apply_fixes_decided fixes original) as Ha.
  destruct (apply_fixes fixes original) as [content|e|s];
    [|done|intros [= <-]; by apply (Ha s)].
  destruct (decide (content = original)); [done|].
  pose proof (write_outcome_decided w filepath content) as Hw.
  destruct (write_outcome w filepath content) as [[]|e|s];
    [done|done|by destruct (Hw s)].
Qed.

Lemma accepting_stream w w' :
  sys_stdout w' = sys_stdout w → accepting w → accepting w'.
Proof. unfold accepting. by intros ->. Qed.

(** On a stream that takes every line, [fix_file] returns for every file
    whose rules are inside the fragment. *)
Lemma fix_file_total filepath fixes w :
  accepting w →
  Forall (λ rule, in_fragment rule = true) fixes →
  let r := fix_file filepath fixes w in
  let o := outcome_of w filepath fixes in
  r.1 = Ok (changed_flag o) ∧ stdout r.2 = stdout w ++ diagnostics filepath o.
Proof.
  intros Hacc Hin. cbn zeta.
  destruct (fix_file_effect filepath fixes w) as (_ & _ & _ & Ho).
  pose proof (outcome_decided w filepath fixes) as Hd.
  destruct (outcome_of w filepath fixes) as [| |e|s]; simpl.
  - by rewrite app_nil_r.
  - by rewrite app_nil_r.
  - by rewrite Hacc in Ho.
  - by destruct (Hd s).
Qed.

Lemma driver_step_total filepath fixes w :
  accepting w →
  Forall (λ rule, in_fragment rule = true) fixes →
  let r := driver_step (filepath, fixes) w in
  r.1 = Ok tt
  ∧ stdout r.2
    = stdout w ++ status_lines filepath (outcome_of w filepath fixes).
Proof.
  intros Hacc Hin. cbn zeta.
  destruct (driver_step_effect filepath fixes w) as (_ & _ & _ & Hr & Hs).
  pose proof (outcome_decided w filepath fixes) as Hd.
  rewrite Hr, Hs. unfold round.
  destruct (outcome_of w filepath fixes) as [| |e|s]; simpl;
    rewrite ?Hacc; try done.
  by destruct (Hd s).
Qed.

Lemma driver_loop_total table w :
  accepting w → within_fragment table →
  (for_each table driver_step w).1 = Ok tt.
Proof.
  intros Hacc Hin. revert w Hacc.
  induction Hin as [|[filepath fixes] table Hhere _ IH]; intros w Hacc.
  - done.
  - rewrite for_each_cons.
    destruct (driver_step_total filepath fixes w Hacc Hhere) as [Hr _].
    destruct (driver_step_effect filepath fixes w) as (Hss & _).
    destruct (driver_step (filepath, fixes) w) as [r w1].
    simpl in Hr, Hss. subst r. apply IH.
    by apply (accepting_stream w).
Qed.

Lemma driver_total table w :
  accepting w → within_fragment table → (driver table w).1 = Ok tt.
Proof.
  intros Hacc Hin. rewrite driver_run, print_run, Hacc.
  set (w0 := World _ _ _ _ _).
  assert (accepting w0) as Hacc0 by done.
  pose proof (driver_loop_total table w0 Hacc0 Hin) as Hr.
  destruct (driver_loop_effect table w0) as (Hss & _).
  destruct (for_each table driver_step w0) as [r w1].
  simpl in Hr, Hss. subst r.
  rewrite print_run, (accepting_stream w0 w1 Hss Hacc0). done.
Qed.

(** ** The log of a run, block by block *)

Lemma file_block_paths filepath fixes block :
  file_block filepath fixes block →
  ∀ e, e ∈ block → event_path e = filepath.
Proof.
  intros Hb e He.
  destruct Hb;
    repeat (apply elem_of_cons in He as [->|He]; [done|]);
    by apply elem_of_nil in He.
Qed.

Lemma blocks_paths table blocks :
  Forall2 (λ entry block, file_block entry.1 entry.2 block) table blocks →
  ∀ e, e ∈ concat blocks → event_path e ∈ table.*1.
Proof.
  induction 1 as [|[p fixes] block table blocks Hb _ IH]; intros e He.
  - by apply elem_of_nil in He.
  - simpl in He. apply elem_of_app in He as [He|He]; simpl.
    + apply elem_of_cons. left. eapply file_block_paths; eauto.
    + apply elem_of_cons. right. by apply IH.
Qed.

Lemma count_rewrites_app filepath evs1 evs2 :
  count_rewrites filepath (evs1 ++ evs2)
  = (count_rewrites filepath evs1 + count_rewrites filepath evs2)%nat.
Proof. induction evs1 as [|e evs1 IH]; simpl; [done|]. rewrite IH. lia. Qed.

Lemma count_rewrites_block filepath fixes block :
  file_block filepath fixes block →
  (count_rewrites filepath block ≤ 1)%nat.
Proof.
  destruct 1; simpl; try lia; destruct (bool_decide _); lia.
Qed.

Lemma count_rewrites_other filepath q fixes block :
  file_block q fixes block → q ≠ filepath →
  count_rewrites filepath block = 0%nat.
Proof.
  intros Hb Hne.
  destruct Hb; simpl; try done; by rewrite bool_decide_eq_false_2.
Qed.

Lemma count_rewrites_absent filepath table blocks :
  Forall2 (λ entry block, file_block entry.1 entry.2 block) table blocks →
  filepath ∉ table.*1 →
  count_rewrites filepath (concat blocks) = 0%nat.
Proof.
  induction 1 as [|[q fixes] block table blocks Hb _ IH]; intros Hq.
  - done.
  - simpl in *. apply not_elem_of_cons in Hq as [Hne Hq].
    rewrite count_rewrites_app, IH by done.
    erewrite count_rewrites_other; eauto.
Qed.

Lemma count_rewrites_blocks filepath table blocks :
  Forall2 (λ entry block, file_block entry.1 entry.2 block) table blocks →
  NoDup table.*1 →
  (count_rewrites filepath (concat blocks) ≤ 1)%nat.
Proof.
  induction 1 as [|[q fixes] block table blocks Hb Hbs IH]; intros Hnd.
  - simpl. lia.
  - simpl in *. apply NoDup_cons in Hnd as [Hq Hnd].
    rewrite count_rewrites_app.
    destruct (decide (q = filepath)) as [->|Hne].
    + rewrite (count_rewrites_absent filepath table blocks) by done.
      pose proof (count_rewrites_block _ _ _ Hb). lia.
    + erewrite count_rewrites_other by eauto. simpl. by apply IH.
Qed.

(** Whoever opens a file for writing has read it before and computed a
    different text from what was read. *)
Lemma rewrite_in_blocks table blocks filepath :
  Forall2 (λ entry block, file_block entry.1 entry.2 block) table blocks →
  EvOpen filepath ModeW ∈ concat blocks →
  ∃ fixes original content,
    (filepath, fixes) ∈ table
    ∧ EvRead filepath original ∈ concat blocks
    ∧ apply_fixes fixes original = Ok content
    ∧ content ≠ original.
Proof.
  induction 1 as [|[q fixes] block table blocks Hb _ IH]; intros He.
  - by apply elem_of_nil in He.
  - simpl in He. apply elem_of_app in He as [He|He].
    + simpl in Hb.
      assert (q = filepath) as ->
        by (symmetry; eapply (file_block_paths _ _ _ Hb _ He)).
      destruct Hb as [|original Hk|original content Ha Hne
                      |original content Ha Hne];
        try solve [exfalso; elem_cases He].
      all: exists fixes, original, content; simpl;
        repeat split; [by left|elem_here|done|done].
    + destruct (IH He) as (fixes' & original & content & Hin & Hr & Ha & Hne).
      exists fixes', original, content. simpl.
      repeat split; [by right| |done|done].
      apply elem_of_app. by right.
Qed.

Lemma write_in_blocks table blocks filepath content :
  Forall2 (λ entry block, file_block entry.1 entry.2 block) table blocks →
  EvWrite filepath content ∈ concat blocks →
  ∃ fixes original,
    (filepath, fixes) ∈ table
    ∧ EvRead filepath original ∈ concat blocks
    ∧ apply_fixes fixes original = Ok content
    ∧ content ≠ original.
Proof.
  induction 1 as [|[q fixes] block table blocks Hb _ IH]; intros He.
  - by apply elem_of_nil in He.
  - simpl in He. apply elem_of_app in He as [He|He].
    + simpl in Hb.
      assert (q = filepath) as ->
        by (symmetry; eapply (file_block_paths _ _ _ Hb _ He)).
      destruct Hb as [|original Hk|original content' Ha Hne
                      |original content' Ha Hne];
        try solve [exfalso; elem_cases He].
      assert (content' = content) as -> by (elem_cases He; congruence).
      exists fixes, original; simpl;
        repeat split; [by left|elem_here|done|done].
    + destruct (IH He) as (fixes' & original & Hin & Hr & Ha & Hne).
      exists fixes', original. simpl.
      repeat split; [by right| |done|done].
      apply elem_of_app. by right.
Qed.

(** Every entry gone through is visited: its file is opened for reading. *)
Lemma blocks_visit_all table blocks :
  Forall2 (λ entry block, file_block entry.1 entry.2 block) table blocks →
  ∀ p, p ∈ table.*1 → EvOpen p ModeR ∈ concat blocks.
Proof.
  induction 1 as [|[q fixes] block table blocks Hb _ IH]; intros p Hp.
  - by apply elem_of_nil in Hp.
  - simpl in *. apply elem_of_cons in Hp as [->|Hp].
    + apply elem_of_app. left. destruct Hb; elem_here.
    + apply elem_of_app. right. by apply IH.
Qed.

(** The entries gone through are entries of the table. *)
Lemma take_paths {A B} n (table : list (A * B)) p :
  p ∈ (take n table).*1 → p ∈ table.*1.
Proof.
  rewrite <- (take_drop n table) at 2. rewrite fmap_app.
  intros Hp. apply elem_of_app. by left.
Qed.

Lemma take_entries {A} n (table : list A) x :
  x ∈ take n table → x ∈ table.
Proof.
  rewrite <- (take_drop n table) at 2.
  intros Hx. apply elem_of_app. by left.
Qed.

Lemma take_paths_NoDup {A B} n (table : list (A * B)) :
  NoDup table.*1 → NoDup (take n table).*1.
Proof.
  rewrite <- (take_drop n table) at 1. rewrite fmap_app.
  by intros [H _]%NoDup_app.
Qed.

(** ** Patterns that match nowhere *)

Lemma scan_no_match fl r tpl budget prev s offset :
  re.search_from fl r prev s offset = None →
  re.scan fl r tpl budget prev s 0 = s.
Proof.
  revert prev offset.
  induction s as [|c s IH]; intros prev offset Hs; simpl in *;
    unfold re.at_position;
    destruct (re.exhausted budget);
    destruct (re.match_here fl r prev _ false) as [[n caps]|];
    try discriminate; simpl; try done;
    f_equal; eauto.
Qed.

(** A rule whose pattern matches nowhere gives back the content, unless its
    template makes [re.sub] raise. *)
Lemma sub_no_match pattern repl content out :
  no_match pattern content →
  re.sub pattern repl content 0 (re.Flags true) = Ok out → out = content.
Proof.
  unfold no_match, re.search, re.sub. intros Hs.
  destruct (re.compile pattern) as [[r groups]|e|what]; simpl in *;
    [|done|done].
  destruct (re.compile_template groups repl) as [tpl|e|what]; simpl;
    [|done|done].
  intros [= <-].
  destruct (re.search_from _ r None content 0) eqn:Hsf; [discriminate|].
  by eapply scan_no_match.
Qed.

Lemma sub_compiles pattern repl content :
  rule_compiles (pattern, repl) = true →
  ∃ out, re.sub pattern repl content 0 (re.Flags true) = Ok out.
Proof.
  unfold rule_compiles, re.sub. simpl.
  destruct (re.compile pattern) as [[r groups]|e|what]; simpl; [|done|done].
  destruct (re.compile_template groups repl) as [tpl|e|what]; simpl;
    [eauto|done|done].
Qed.

Lemma apply_fixes_no_match fixes content out :
  (∀ rule, rule ∈ fixes → no_match rule.1 content) →
  apply_fixes fixes content = Ok out → out = content.
Proof.
  induction fixes as [|[pattern repl] fixes IH]; intros Hno; simpl.
  - by intros [= <-].
  - pose proof (sub_no_match pattern repl content) as Hsub.
    destruct (re.sub pattern repl content 0 _) as [content'|e|what];
      simpl; [|done|done].
    rewrite (Hsub content') by (try done; apply (Hno (pattern, repl)); by left).
    apply IH. intros rule Hr. apply Hno. by right.
Qed.

Lemma apply_fixes_no_match_compiles fixes content :
  (∀ rule, rule ∈ fixes → no_match rule.1 content) →
  Forall (λ rule, rule_compiles rule = true) fixes →
  apply_fixes fixes content = Ok content.
Proof.
  intros Hno Hall.
  induction Hall as [|[pattern repl] fixes Hc _ IH]; simpl; [done|].
  destruct (sub_compiles pattern repl content Hc) as [out Hout].
  rewrite Hout. simpl.
  rewrite (sub_no_match pattern repl content out) by
    (try done; apply (Hno (pattern, repl)); by left).
  apply IH. intros rule Hr. apply Hno. by right.
Qed.

(** Every rule of the script's table is inside the fragment, and compiles. *)
Lemma file_fixes_within_fragment : within_fragment file_fixes.
Proof.
  unfold within_fragment, file_fixes.
  repeat (first [apply Forall_nil_2 | apply Forall_cons_2]);
    vm_compute; reflexivity.
Qed.

Lemma file_fixes_compile :
  Forall (λ entry, Forall (λ rule, rule_compiles rule = true) entry.2)
    file_fixes.
Proof.
  unfold file_fixes.
  repeat (first [apply Forall_nil_2 | apply Forall_cons_2]);
    vm_compute; reflexivity.
Qed.

(** ** The claims on [fix_file] and the driver *)



(** C3, as amended.  Once the file is read and all rules are applied, the
    final text is compared with the text that was read.  If they are equal
    nothing is written, nothing is printed and [False] is returned.  If they
    differ the file is opened for writing, and when that write goes through
    (the file is writable, the text has an encoding and the device has room
    for it) the file holds the encoding of the final text and [True] is
    returned.  When no pattern matches anywhere in the content, no file is
    changed and [True] is not returned; [False] is returned when every
    rule compiles, and also when the stream takes the diagnostic of a
    template that does not. *)
Theorem C3_compare_then_write filepath fixes w original :
  read_text w filepath = Ok original →
  let r := fix_file filepath fixes w in
  (∀ content, apply_fixes fixes original = Ok content →
     (content = original →
        r.1 = Ok false ∧ files r.2 = files w ∧ stdout r.2 = stdout w
        ∧ new_calls (fix_file filepath fixes) w
          = [EvOpen filepath ModeR; EvRead filepath original])
     ∧ (content ≠ original →
        (∃ evs, new_calls (fix_file filepath fixes) w
                = [EvOpen filepath ModeR; EvRead filepath original;
                   EvOpen filepath ModeW] ++ evs)
        ∧ ∀ f bytes,
            files w !! filepath = Some f →
            writable f = true →
            encode_utf8 content = Some bytes →
            (length bytes ≤ free_space w + length (data f))%nat →
            r.1 = Ok true
            ∧ files r.2 = <[filepath := File (readable f) true bytes]> (files w)
            ∧ stdout r.2 = stdout w))
  ∧ ((∀ rule, rule ∈ fixes → no_match rule.1 original) →
     files r.2 = files w
     ∧ r.1 ≠ Ok true
     ∧ (Forall (λ rule, rule_compiles rule = true) fixes →
        r.1 = Ok false ∧ stdout r.2 = stdout w)
     ∧ (accepting w → Forall (λ rule, in_fragment rule = true) fixes →
        r.1 = Ok false)).
Proof.
  intros Hread. cbn zeta. split.
  - intros content Happ. split.
    + intros ->. unfold new_calls.
      rewrite fix_file_run, Hread. cbn zeta. rewrite Happ.
      rewrite decide_True by done. simpl.
      by rewrite drop_app_length.
    + intros Hne. split.
      * unfold new_calls. rewrite fix_file_run, Hread. cbn zeta.
        rewrite Happ, decide_False by done.
        set (w1 := logged _ w).
        destruct (write_back_frame filepath content w1) as (_ & _ & _ & Hc).
        destruct (write_back filepath content w1) as [[[]|e|what] w2];
          rewrite ?report_run; try destruct (refuses _ _ _);
          simpl in *; destruct Hc as [-> | ->];
          rewrite <- app_assoc, drop_app_length; simpl; eauto.
      * intros f bytes Hf Hw He Hlen.
        rewrite fix_file_run, Hread. cbn zeta.
        rewrite Happ, decide_False by done.
        by erewrite write_back_ok by eauto.
  - intros Hno. rewrite fix_file_run, Hread. cbn zeta.
    pose proof (apply_fixes_no_match fixes original) as Hsame.
    pose proof (apply_fixes_no_match_compiles fixes original Hno) as Hcomp.
    pose proof (apply_fixes_decided fixes original) as Hdec.
    destruct (apply_fixes fixes original) as [content|e|what].
    + rewrite (Hsame content Hno eq_refl), decide_True by done.
      simpl. by repeat split.
    + rewrite report_run. simpl.
      destruct (refuses _ _ _) as [e'|] eqn:Href; simpl.
      * split; [done|]. split; [done|]. split.
        -- intros Hall. by specialize (Hcomp Hall).
        -- intros Hacc _. by rewrite Hacc in Href.
      * split; [done|]. split; [done|]. split; [|done].
        intros Hall. by specialize (Hcomp Hall).
    + simpl. split; [done|]. split; [done|]. split.
      * intros Hall. by specialize (Hcomp Hall).
      * intros _ Hin. by destruct (Hdec what Hin).
Qed.

Lemma C3_compare_then_write_witness :
  read_text carousel_world carousel
  = Ok (str carousel_source)
  ∧ (fix_file carousel carousel_fixes carousel_world).1 = Ok true.
Proof.
  assert (read_text carousel_world carousel = Ok (str carousel_source))
    as Hread by (vm_compute; reflexivity).
  split; [exact Hread|].
  destruct (C3_compare_then_write carousel carousel_fixes carousel_world
              _ Hread) as [Hcmp _].
  destruct (Hcmp (str ("  " +:+ current_line) ++ [LF; LF] ++ str guard_line
                  ++ [LF] ++ str "  return currentID.name;" ++ [LF]))
    as [_ Hdiff]; [vm_compute; reflexivity|].
  destruct Hdiff as [_ Hw]; [vm_compute; discriminate|].
  eapply proj1, Hw.
  - vm_compute; reflexivity.
  - reflexivity.
  - vm_compute; reflexivity.
  - vm_compute. lia.
Defined.

(** C3 as stated fails in its last part.  The file at [cafe] is read, the
    pattern [zzz] matches nowhere in it, and yet [fix_file] does not return
    [False]: the template of the rule does not compile, [re.sub] raises,
    and the stream, which is ASCII only, refuses the diagnostic because of
    the path in it; the [UnicodeEncodeError] leaves [fix_file].  On a
    terminal the same call prints the diagnostic and returns [False]. *)
Lemma C3_no_match_yet_no_return :
  read_text cafe_world cafe = Ok (str "abc")
  ∧ (∀ rule, rule ∈ broken_template → no_match rule.1 (str "abc"))
  ∧ apply_fixes broken_template (str "abc") = Raise re_error
  ∧ (fix_file cafe broken_template cafe_world).1 = Raise UnicodeEncodeError
  ∧ (fix_file cafe broken_template cafe_world).1 ≠ Ok false
  ∧ (fix_file cafe broken_template (with_stdout terminal cafe_world)).1
    = Ok false.
Proof.
  split; [vm_compute; reflexivity|].
  split.
  { intros rule Hr. unfold broken_template in Hr. elem_cases Hr.
    subst rule. vm_compute. reflexivity. }
  split; [vm_compute; reflexivity|].
  assert ((fix_file cafe broken_template cafe_world).1
          = Raise UnicodeEncodeError) as Hr by (vm_compute; reflexivity).
  split; [exact Hr|]. split; [by rewrite Hr|].
  vm_compute. reflexivity.
Qed.

(** C4, as amended.  On a stream that takes the diagnostic, a failure on a
    file does not leave [fix_file]: when the file cannot be read (it is
    missing, unreadable, or no valid UTF-8), when a substitution raises, or
    when the file cannot be written back, [fix_file] prints one line made of
    the path and the message of the exception and returns [False].
    [fix_file] raises in one case only: the stream refuses that line, and
    the exception is the one of the stream.  On a stream that takes every
    line the driver goes through all entries whatever happens to each and
    prints the completion line last, and the script ends with status 0 if
    the flush at exit goes through.  The messages of the operating system
    are spelt as CPython spells them. *)
Theorem C4_failures_are_reported :
  (∀ filepath fixes w,
     accepting w → Forall (λ rule, in_fragment rule = true) fixes →
     ∃ b, (fix_file filepath fixes w).1 = Ok b)
  ∧ (∀ filepath fixes w e,
       read_text w filepath = Raise e →
       accepted w (diagnostic filepath e) →
       (fix_file filepath fixes w).1 = Ok false
       ∧ new_output (fix_file filepath fixes) w
         = [Line ("Error fixing " +:+ filepath +:+ ": ") (Some e)])
  ∧ (∀ filepath fixes w original e,
       read_text w filepath = Ok original →
       apply_fixes fixes original = Raise e →
       accepted w (diagnostic filepath e) →
       (fix_file filepath fixes w).1 = Ok false
       ∧ new_output (fix_file filepath fixes) w
         = [Line ("Error fixing " +:+ filepath +:+ ": ") (Some e)])
  ∧ (∀ filepath fixes w original content e,
       read_text w filepath = Ok original →
       apply_fixes fixes original = Ok content →
       content ≠ original →
       write_outcome w filepath content = Raise e →
       accepted w (diagnostic filepath e) →
       (fix_file filepath fixes w).1 = Ok false
       ∧ new_output (fix_file filepath fixes) w
         = [Line ("Error fixing " +:+ filepath +:+ ": ") (Some e)])
  ∧ (∀ filepath fixes w e',
       (fix_file filepath fixes w).1 = Raise e' →
       ∃ e, outcome_of w filepath fixes = Failed e
            ∧ refuses (sys_stdout w) (stdout w) (diagnostic filepath e)
              = Some e')
  ∧ (∀ table w,
       accepting w → within_fragment table →
       (driver table w).1 = Ok tt
       ∧ last (stdout (driver table w).2) = Some (plain (newline +:+ "Done!"))
       ∧ ∀ p, p ∈ table.*1 → EvOpen p ModeR ∈ new_calls (driver table) w)
  ∧ (∀ w,
       accepting w →
       fails_at_exit (sys_stdout w) (stdout (main w).2) = false →
       exit_status w = Some 0%nat)
  ∧ render (diagnostic "lib/i18n/utils.ts"
              (FileNotFoundError "lib/i18n/utils.ts"))
    = Some ("Error fixing lib/i18n/utils.ts: "
            +:+ "[Errno 2] No such file or directory: 'lib/i18n/utils.ts'")
  ∧ render (diagnostic "lib/i18n/utils.ts"
              (PermissionError "lib/i18n/utils.ts"))
    = Some ("Error fixing lib/i18n/utils.ts: "
            +:+ "[Errno 13] Permission denied: 'lib/i18n/utils.ts'")
  ∧ render (diagnostic "lib/i18n/utils.ts" NoSpaceError)
    = Some ("Error fixing lib/i18n/utils.ts: "
            +:+ "[Errno 28] No space left on device").
Proof.
  assert (∀ filepath fixes w e,
            outcome_of w filepath fixes = Failed e →
            accepted w (diagnostic filepath e) →
            (fix_file filepath fixes w).1 = Ok false
            ∧ new_output (fix_file filepath fixes) w
              = [diagnostic filepath e]) as Hfail.
  { intros filepath fixes w e Ho Hacc.
    destruct (fix_file_effect filepath fixes w) as (_ & _ & _ & Hr).
    cbn zeta in *. rewrite Ho, Hacc in Hr. destruct Hr as [Hr Hs].
    split; [done|]. by apply new_output_app. }
  split; [|split; [|split; [|split; [|split; [|split; [|split]]]]]].
  - intros filepath fixes w Hacc Hin.
    destruct (fix_file_total filepath fixes w Hacc Hin) as [Hr _]. eauto.
  - intros filepath fixes w e Hread. apply Hfail.
    unfold outcome_of. by rewrite Hread.
  - intros filepath fixes w original e Hread Happ. apply Hfail.
    unfold outcome_of. by rewrite Hread, Happ.
  - intros filepath fixes w original content e Hread Happ Hne Hw.
    apply Hfail. unfold outcome_of.
    by rewrite Hread, Happ, decide_False, Hw.
  - intros filepath fixes w e' Hr.
    destruct (fix_file_effect filepath fixes w) as (_ & _ & _ & Ho).
    cbn zeta in *. rewrite Hr in Ho.
    destruct (outcome_of w filepath fixes) as [| |e|what];
      try (by destruct Ho).
    exists e. split; [done|].
    destruct (refuses _ _ _) as [e''|]; destruct Ho as [Ho _]; congruence.
  - intros table w Hacc Hin.
    pose proof (driver_total table w Hacc Hin) as Hok.
    destruct (driver_effect table w)
      as (_ & _ & (n & blocks & Hc & Hbs & Hn)
          & outcomes & lines & _ & Hs & _ & Hall).
    split; [done|]. split.
    + rewrite Hs, (Hall Hok), !app_assoc. apply last_snoc.
    + intros p Hp. rewrite (new_calls_app _ _ _ Hc).
      rewrite (Hn Hok), firstn_all in Hbs.
      by eapply blocks_visit_all.
  - intros w Hacc Hflush. unfold exit_status. cbn zeta.
    pose proof (driver_total file_fixes w Hacc file_fixes_within_fragment)
      as Hok.
    destruct (driver_effect file_fixes w) as (Hss & _).
    unfold main in *. cbn zeta in Hss. by rewrite Hok, Hss, Hflush.
  - repeat split; vm_compute; reflexivity.
Qed.

(** C4 as stated fails: the failures of standard output are not caught.
    With a stream that is ASCII only, a missing file whose path has another
    character makes [fix_file] raise: its diagnostic is refused.  On the
    same stream a run over the first file of the table rewrites the file and
    then stops at the "Fixed" line, whose check mark the stream refuses: the
    exception leaves the script, the twelve other entries are not visited,
    the completion line is not printed, and the exit status is 1.  And when
    standard output goes to a device that is full, every [print] returns,
    the run reaches its end, and the exit status is 120. *)
Lemma C4_refused_line_ends_the_run :
  read_text ascii_world cafe = Raise (FileNotFoundError cafe)
  ∧ (fix_file cafe [] ascii_world).1 = Raise UnicodeEncodeError
  ∧ (main ascii_world).1 = Raise UnicodeEncodeError
  ∧ new_output main ascii_world = [header]
  ∧ new_calls main ascii_world
    = [EvOpen carousel ModeR; EvRead carousel (str carousel_source);
       EvOpen carousel ModeW;
       EvWrite carousel
         (str ("  " +:+ current_line +:+ newline +:+ newline +:+ guard_line
               +:+ newline +:+ "  return currentID.name;" +:+ newline))]
  ∧ length file_fixes = 13%nat
  ∧ (completion ∉ stdout (main ascii_world).2)
  ∧ exit_status ascii_world = Some 1%nat
  ∧ (main full_device_world).1 = Ok tt
  ∧ last (stdout (main full_device_world).2) = Some completion
  ∧ exit_status full_device_world = Some 120%nat.
Proof.
  assert (new_output main ascii_world = [header]) as Hout
    by (vm_compute; reflexivity).
  split; [vm_compute; reflexivity|].
  split; [vm_compute; reflexivity|].
  split; [vm_compute; reflexivity|].
  split; [exact Hout|].
  split; [vm_compute; reflexivity|].
  split; [reflexivity|].
  split.
  { change (stdout (main ascii_world).2) with (new_output main ascii_world).
    rewrite Hout. intros Hin. elem_cases Hin. }
  split; [vm_compute; reflexivity|].
  split; [vm_compute; reflexivity|].
  split; vm_compute; reflexivity.
Qed.

(** C5.  The rules are applied one after the other: the loop is the left
    fold of the substitution over the list of rules, starting from the text
    that was read; a rule appended to a list is applied to what the list
    produces; and the text [fix_file] writes is that fold of the text it
    read.  The last part shows a second rule that matches only the output of
    the first. *)
Theorem C5_sequential_composition :
  (∀ fixes content,
     apply_fixes fixes content
     = fold_left (λ acc rule, acc ≫= apply_rule rule) fixes (Ok content))
  ∧ (∀ fixes rule content,
       apply_fixes (fixes ++ [rule]) content
       = apply_fixes fixes content ≫= apply_rule rule)
  ∧ (∀ filepath fixes w content,
       EvWrite filepath content ∈ new_calls (fix_file filepath fixes) w →
       ∃ original,
         read_text w filepath = Ok original
         ∧ fold_left (λ acc rule, acc ≫= apply_rule rule) fixes (Ok original)
           = Ok content)
  ∧ apply_fixes [(str "a", str "b"); (str "b", str "c")] (str "a")
    = Ok (str "c").
Proof.
  assert (∀ fixes acc,
            fold_left (λ acc rule, acc ≫= apply_rule rule) fixes acc
            = acc ≫= apply_fixes fixes) as Hfold.
  { induction fixes as [|[pattern repl] fixes IH]; intros acc; simpl.
    - by destruct acc.
    - rewrite IH. by destruct acc. }
  split; [|split; [|split]].
  - intros fixes content. by rewrite Hfold.
  - induction fixes as [|[pattern repl] fixes IH]; intros rule content; simpl.
    + destruct rule as [pattern repl]. unfold apply_rule. simpl.
      by destruct (re.sub pattern repl content 0 _).
    + destruct (re.sub pattern repl content 0 _) as [content'|e|what]; simpl;
        [apply IH|done|done].
  - intros filepath fixes w content Hin.
    unfold new_calls in Hin. rewrite fix_file_run in Hin.
    destruct (read_text w filepath) as [original|e|what]; simpl in Hin.
    2: { rewrite report_run in Hin. destruct (refuses _ _ _); simpl in Hin;
           rewrite drop_app_length in Hin; elem_cases Hin. }
    2: { rewrite drop_app_length in Hin. elem_cases Hin. }
    exists original. split; [done|]. rewrite Hfold. simpl.
    destruct (apply_fixes fixes original) as [content'|e|what]; simpl in Hin.
    2: { rewrite report_run in Hin. destruct (refuses _ _ _); simpl in Hin;
           rewrite drop_app_length in Hin; elem_cases Hin. }
    2: { rewrite drop_app_length in Hin. elem_cases Hin. }
    destruct (decide (content' = original)) as [->|Hne]; simpl in Hin.
    { rewrite drop_app_length in Hin. elem_cases Hin. }
    set (w1 := logged _ w) in Hin.
    destruct (write_back_frame filepath content' w1) as (_ & _ & _ & Hc).
    destruct (write_back filepath content' w1) as [[[]|e|what] w2];
      rewrite ?report_run in Hin; try destruct (refuses _ _ _);
      simpl in *; destruct Hc as [Hc | Hc]; rewrite Hc in Hin;
      rewrite <- app_assoc, drop_app_length in Hin; simpl in Hin;
      elem_cases Hin; congruence.
  - vm_compute. reflexivity.
Qed.

(** C7.  In a run over a table that names each path once, no file is opened
    for writing more than once; and a file is opened for writing, or written,
    only after it was read in the same run and its rules produced a text
    different from the one read.  This holds of the calls of every run,
    also of one that an exception of standard output ends early.  The
    script's table names each path once (this is the witness below). *)
Theorem C7_rewritten_at_most_once table w :
  NoDup table.*1 →
  let evs := new_calls (driver table) w in
  (∀ filepath, (count_rewrites filepath evs ≤ 1)%nat)
  ∧ (∀ filepath,
       EvOpen filepath ModeW ∈ evs →
       ∃ fixes original content,
         (filepath, fixes) ∈ table
         ∧ EvRead filepath original ∈ evs
         ∧ apply_fixes fixes original = Ok content
         ∧ content ≠ original)
  ∧ (∀ filepath content,
       EvWrite filepath content ∈ evs →
       ∃ fixes original,
         (filepath, fixes) ∈ table
         ∧ EvRead filepath original ∈ evs
         ∧ apply_fixes fixes original = Ok content
         ∧ content ≠ original).
Proof.
  intros Hnd. cbn zeta.
  destruct (driver_effect table w)
    as (_ & _ & (n & blocks & Hc & Hbs & _) & _).
  rewrite (new_calls_app _ _ _ Hc).
  split; [|split].
  - intros filepath.
    apply (count_rewrites_blocks filepath (take n table)); [done|].
    by apply take_paths_NoDup.
  - intros filepath Hin.
    destruct (rewrite_in_blocks _ _ _ Hbs Hin)
      as (fixes & original & content & Hentry & Hrest).
    exists fixes, original, content.
    split; [by eapply take_entries|done].
  - intros filepath content Hin.
    destruct (write_in_blocks _ _ _ _ Hbs Hin)
      as (fixes & original & Hentry & Hrest).
    exists fixes, original.
    split; [by eapply take_entries|done].
Qed.

Lemma C7_rewritten_at_most_once_witness :
  NoDup file_fixes.*1
  ∧ (count_rewrites carousel (new_calls main carousel_world) ≤ 1)%nat.
Proof.
  assert (NoDup file_fixes.*1) as Hnd
    by (apply (bool_decide_unpack _); vm_compute; exact I).
  split; [exact Hnd|].
  apply (C7_rewritten_at_most_once file_fixes carousel_world Hnd).
Defined.

(** C9.  A run touches the paths of its table and no others: a path that is
    not in the table keeps its file (or its absence), and no call of the run
    names it, whether the run reaches its end or not.  The paths of the
    script's table are relative, so the operating system resolves them
    against the working directory. *)
Theorem C9_only_table_paths_touched :
  (∀ table w q,
     q ∉ table.*1 →
     files (driver table w).2 !! q = files w !! q
     ∧ ∀ e, e ∈ new_calls (driver table) w → event_path e ≠ q)
  ∧ (∀ w e, e ∈ new_calls main w → event_path e ∈ file_fixes.*1)
  ∧ forallb is_relative file_fixes.*1 = true.
Proof.
  split; [|split].
  - intros table w q Hq.
    destruct (driver_effect table w)
      as (_ & Hf & (n & blocks & Hc & Hbs & _) & _).
    split; [by apply Hf|].
    intros e He Heq. apply Hq. rewrite <- Heq.
    rewrite (new_calls_app _ _ _ Hc) in He.
    eapply take_paths. by eapply blocks_paths.
  - intros w e He. unfold main in He.
    destruct (driver_effect file_fixes w)
      as (_ & _ & (n & blocks & Hc & Hbs & _) & _).
    rewrite (new_calls_app _ _ _ Hc) in He.
    eapply take_paths. by eapply blocks_paths.
  - vm_compute. reflexivity.
Qed.

Lemma C9_only_table_paths_touched_witness :
  ("package.json" ∉ file_fixes.*1)
  ∧ files (main carousel_world).2 !! "package.json"
    = files carousel_world !! "package.json".
Proof.
  assert ("package.json" ∉ file_fixes.*1) as Hq
    by (apply (bool_decide_unpack _); vm_compute; exact I).
  split; [exact Hq|].
  destruct C9_only_table_paths_touched as [Hframe _].
  apply (Hframe file_fixes carousel_world "package.json" Hq).
Defined.

(** C10.  [False] from [fix_file] does not mean that the file is as it was.
    On a device with ten free bytes the first file of the table is read, its
    rule applies, the file is opened for writing and thereby emptied, and the
    patched text does not fit: [fix_file] prints the diagnostic and returns
    [False], and the file holds neither its original bytes nor the patched
    ones, only the part of the patched text that fitted. *)
Theorem C10_failed_write_loses_content :
  let r := fix_file carousel carousel_fixes full_disk_world in
  let patched :=
    bytes_of ("  " +:+ current_line +:+ newline +:+ newline +:+ guard_line
              +:+ newline +:+ "  return currentID.name;" +:+ newline) in
  r.1 = Ok false
  ∧ new_calls (fix_file carousel carousel_fixes) full_disk_world
    = [EvOpen carousel ModeR; EvRead carousel (str carousel_source);
       EvOpen carousel ModeW;
       EvWrite carousel (str (string_of_list_byte patched))]
  ∧ new_output (fix_file carousel carousel_fixes) full_disk_world
    = [Line ("Error fixing " +:+ carousel +:+ ": ") (Some NoSpaceError)]
  ∧ render (Line ("Error fixing " +:+ carousel +:+ ": ") (Some NoSpaceError))
    = Some ("Error fixing " +:+ carousel +:+ ": "
            +:+ "[Errno 28] No space left on device")
  ∧ data <$> files full_disk_world !! carousel
    = Some (bytes_of carousel_source)
  ∧ data <$> files r.2 !! carousel
    = Some (take (10 + length (bytes_of carousel_source)) patched)
  ∧ take (10 + length (bytes_of carousel_source)) patched
    ≠ bytes_of carousel_source
  ∧ take (10 + length (bytes_of carousel_source)) patched ≠ patched
  ∧ ¬ (∀ filepath fixes w,
         (fix_file filepath fixes w).1 = Ok false →
         files (fix_file filepath fixes w).2 !! filepath
         = files w !! filepath).
Proof.
  cbn zeta.
  split; [vm_compute; reflexivity|].
  split; [vm_compute; reflexivity|].
  split; [vm_compute; reflexivity|].
  split; [vm_compute; reflexivity|].
  split; [vm_compute; reflexivity|].
  split; [vm_compute; reflexivity|].
  split; [vm_compute; discriminate|].
  split; [vm_compute; discriminate|].
  intros Hall.
  specialize (Hall carousel carousel_fixes full_disk_world).
  assert ((fix_file carousel carousel_fixes full_disk_world).1 = Ok false)
    as Hr by (vm_compute; reflexivity).
  apply Hall in Hr. vm_compute in Hr. discriminate.
Qed.

(** ** The matcher only moves forward *)


Lemma step_forward p : forward (re.step p).
Proof.
  intros k st res. unfold re.step.
  destruct (re.ms_rest st) as [|c t] eqn:Hr; [done|].
  destruct (p c); [|done]. intros Hk.
  eexists. split; [|exact Hk]. simpl. lia.
Qed.

Lemma repeat_forward body greedy fuel :
  forward body → forward (λ k, re.repeat body greedy k fuel).
Proof.
  intros Hbody. induction fuel as [|fuel IH]; intros k st res; simpl.
  - intros Hk. exists st. split; [lia|done].
  - assert (body (λ st', if Nat.eqb (length (re.ms_rest st'))
                                    (length (re.ms_rest st))
                         then k st' else re.repeat body greedy k fuel st') st
            = Some res →
            ∃ st', (length (re.ms_rest st') ≤ length (re.ms_rest st))%nat
                   ∧ k st' = Some res) as Hagain.
    { intros Hb. apply Hbody in Hb as (st1 & Hlen & Hk).
      destruct (Nat.eqb _ _).
      - exists st1. split; [lia|done].
      - apply IH in Hk as (st2 & Hlen2 & Hk).
        exists st2. split; [lia|done]. }
    destruct greedy.
    + destruct (body _ st) as [res'|] eqn:Hb.
      * intros [= <-]. by apply Hagain.
      * intros Hk. exists st. split; [lia|done].
    + destruct (k st) as [res'|] eqn:Hk.
      * intros [= <-]. exists st. split; [lia|done].
      * apply Hagain.
Qed.

Lemma m_forward fl r : forward (re.m fl r).
Proof.
  induction r as [|c| |neg|neg items| | |r1 IH1 r2 IH2|r1 IH1 r2 IH2
                  |g r IH|g r IH|g r IH|g r IH|n];
    intros k st res; simpl.
  - intros Hk. exists st. split; [lia|done].
  - apply step_forward.
  - apply step_forward.
  - apply step_forward.
  - apply step_forward.
  - destruct (re.at_bol fl st); [|done].
    intros Hk. exists st. split; [lia|done].
  - destruct (re.at_eol fl st); [|done].
    intros Hk. exists st. split; [lia|done].
  - intros H. apply IH1 in H as (st1 & Hlen1 & H).
    apply IH2 in H as (st2 & Hlen2 & H).
    exists st2. split; [lia|done].
  - destruct (re.m fl r1 k st) as [res'|] eqn:H1.
    + intros [= <-]. by apply IH1.
    + apply IH2.
  - intros H.
    exact (repeat_forward (re.m fl r) g (S (length (re.ms_rest st))) IH
             k st res H).
  - intros H. apply IH in H as (st1 & Hlen1 & H).
    destruct (repeat_forward (re.m fl r) g (S (length (re.ms_rest st1))) IH
                k st1 res H) as (st2 & Hlen2 & H2).
    exists st2. split; [lia|done].
  - destruct g.
    + destruct (re.m fl r k st) as [res'|] eqn:H1.
      * intros [= <-]. by apply IH.
      * intros Hk. exists st. split; [lia|done].
    + destruct (k st) as [res'|] eqn:Hk.
      * intros [= <-]. exists st. split; [lia|done].
      * apply IH.
  - intros H. apply IH in H as (st1 & Hlen1 & H).
    exists (re.close_group g st st1). split; [|done].
    by destruct g.
  - destruct (re.ms_caps st !! n) as [t|]; [|done].
    destruct (re.is_prefix t (re.ms_rest st)); [|done].
    intros Hk. eexists. split; [|exact Hk].
    simpl. rewrite length_drop. lia.
Qed.

(** A match is never longer than what is left of the subject, and with
    [must_advance] it is not empty. *)
Lemma match_here_length fl r prev s ma n caps :
  re.match_here fl r prev s ma = Some (n, caps) →
  (n ≤ length s)%nat ∧ (ma = true → n ≠ 0%nat).
Proof.
  unfold re.match_here.
  destruct (re.m fl r _ _) as [st'|] eqn:Hm; [|done].
  intros [= <- <-]. split; [lia|].
  intros ->. apply m_forward in Hm as (st1 & Hlen & Hk).
  simpl in *.
  destruct (Nat.eqb (length (re.ms_rest st1)) (length s)) eqn:He; [done|].
  injection Hk as <-. apply Nat.eqb_neq in He. lia.
Qed.

(** ** [re.sub] replaces every match *)

Lemma prev_after_cons prev c t :
  prev_after prev (c :: t) = prev_after (Some c) t.
Proof. unfold prev_after. rewrite last_cons. by destruct (last t). Qed.

(** Passing over the rest of a match leads to the position where it ends. *)
Lemma scan_skip fl r tpl budget prev s n :
  (n ≤ length s)%nat →
  re.scan fl r tpl budget prev s n
  = re.scan fl r tpl budget (prev_after prev (take n s)) (drop n s) 0.
Proof.
  revert prev s. induction n as [|n IH]; intros prev s Hn.
  - by rewrite take_0, drop_0.
  - destruct s as [|c s]; simpl in Hn; [lia|].
    rewrite firstn_cons, skipn_cons, prev_after_cons.
    rewrite <- IH by lia. reflexivity.
Qed.

Lemma scan_at_match fl r tpl budget prev s n :
  (S n ≤ length s)%nat →
  match s with
  | [] => []
  | c :: s' => re.scan fl r tpl budget (Some c) s' n
  end
  = re.scan fl r tpl budget (prev_after prev (take (S n) s)) (drop (S n) s) 0.
Proof.
  intros Hn. destruct s as [|c s]; simpl in Hn; [lia|].
  rewrite firstn_cons, skipn_cons, prev_after_cons.
  apply scan_skip. lia.
Qed.

(** Without a limit on the number of replacements, the loop of [sub]
    computes the substitution. *)
Lemma scan_Subst fl r tpl s :
  ∀ prev,
    Subst fl r (re.expand tpl) prev false s (re.scan fl r tpl None prev s 0).
Proof.
  induction s as [s IH] using (induction_ltof1 _ (@length N)).
  unfold ltof in IH. intros prev.
  assert (∀ ma,
            re.match_here fl r prev s ma = None →
            Subst fl r (re.expand tpl) prev ma s
              match s with
              | [] => []
              | c :: s' => c :: re.scan fl r tpl None (Some c) s' 0
              end) as Hcopy.
  { intros ma Hm. destruct s as [|c s'].
    - by constructor.
    - constructor; [done|]. apply IH. simpl. lia. }
  assert (∀ ma n caps,
            re.match_here fl r prev s ma = Some (S n, caps) →
            Subst fl r (re.expand tpl) prev ma s
              (re.expand tpl (take (S n) s) caps ++
               match s with
               | [] => []
               | c :: s' => re.scan fl r tpl None (Some c) s' n
               end)) as Hmatch.
  { intros ma n caps Hm.
    destruct (match_here_length _ _ _ _ _ _ _ Hm) as [Hn _].
    rewrite (scan_at_match fl r tpl None prev s n Hn).
    apply Subst_match; [done|]. apply IH.
    rewrite length_drop. lia. }
  replace (re.scan fl r tpl None prev s 0)
    with (let '(out, n, budget') := re.at_position fl r tpl None prev s in
          out ++
          match s with
          | [] => []
          | c :: s' =>
            match n with
            | O => c :: re.scan fl r tpl budget' (Some c) s' O
            | S n' => re.scan fl r tpl budget' (Some c) s' n'
            end
          end) by (by destruct s).
  unfold re.at_position. simpl.
  destruct (re.match_here fl r prev s false) as [[[|n] caps]|] eqn:Hm.
  - destruct (re.match_here fl r prev s true) as [[[|n] caps']|] eqn:Hm'.
    + destruct (match_here_length _ _ _ _ _ _ _ Hm') as [_ Hne].
      by destruct Hne.
    + rewrite <- app_assoc. apply Subst_empty; [done|]. by apply Hmatch.
    + apply Subst_empty; [done|]. by apply Hcopy.
  - by apply Hmatch.
  - simpl. by apply Hcopy.
Qed.

(** The substitution of a text is unique. *)
Lemma Subst_functional fl r rep prev ma s out1 out2 :
  Subst fl r rep prev ma s out1 →
  Subst fl r rep prev ma s out2 →
  out1 = out2.
Proof.
  intros H1. revert out2.
  induction H1 as [prev ma Hm
                  |prev ma c s out Hm _ IH
                  |prev s caps out Hm _ IH
                  |prev ma s n caps out Hm _ IH];
    intros out2 H2; inversion H2; subst; try congruence.
  - f_equal. by apply IH.
  - assert (caps0 = caps) as -> by congruence. f_equal. by apply IH.
  - assert (n0 = n ∧ caps0 = caps) as [-> ->] by (split; congruence).
    f_equal. by apply IH.
Qed.

(** ** Literal patterns *)

Lemma is_prefix_length l s :
  re.is_prefix l s = true → (length l ≤ length s)%nat.
Proof.
  revert s. induction l as [|c l IH]; intros s; simpl; [lia|].
  destruct s as [|x s]; [done|].
  intros [_ H]%andb_true_iff. apply IH in H. simpl. lia.
Qed.

Lemma is_prefix_app l post : re.is_prefix l (l ++ post) = true.
Proof.
  induction l as [|c l IH]; simpl; [done|].
  by rewrite N.eqb_refl, IH.
Qed.

(** A literal pattern matches exactly where the literal is a prefix of what
    is left of the subject. *)
Lemma m_lit fl l k st :
  re.m fl (lit l) k st
  = if re.is_prefix l (re.ms_rest st)
    then k (re.MState (prev_after (re.ms_prev st) l)
                      (drop (length l) (re.ms_rest st)) (re.ms_caps st))
    else None.
Proof.
  revert st. induction l as [|c l IH]; intros [prev rest caps]; simpl.
  - reflexivity.
  - unfold re.step. simpl. destruct rest as [|x rest]; [done|].
    destruct (c =? x) eqn:Hc; simpl; [|done].
    apply N.eqb_eq in Hc as <-.
    rewrite IH. simpl. by rewrite prev_after_cons.
Qed.

Lemma match_here_lit fl l prev s ma :
  l ≠ [] →
  re.match_here fl (lit l) prev s ma
  = if re.is_prefix l s then Some (length l, ∅) else None.
Proof.
  intros Hl. unfold re.match_here. rewrite m_lit. simpl.
  destruct (re.is_prefix l s) eqn:Hp; [|done].
  apply is_prefix_length in Hp.
  assert (0 < length l)%nat by (destruct l; simpl; [by destruct Hl|lia]).
  rewrite length_drop.
  replace (Nat.eqb (length s - length l) (length s)) with false
    by (symmetry; apply Nat.eqb_neq; lia).
  rewrite andb_false_r. simpl. rewrite length_drop.
  by replace (length s - (length s - length l))%nat with (length l) by lia.
Qed.

Lemma expand_lits repl whole caps :
  re.expand (re.TLit <$> repl) whole caps = repl.
Proof.
  induction repl as [|c repl IH]; [done|].
  unfold re.expand in *. simpl. by f_equal.
Qed.

Lemma at_position_lit fl l repl prev s :
  l ≠ [] →
  re.at_position fl (lit l) (re.TLit <$> repl) None prev s
  = if re.is_prefix l s then (repl, length l, None) else ([], 0%nat, None).
Proof.
  intros Hl. unfold re.at_position. simpl.
  rewrite match_here_lit by done.
  destruct (re.is_prefix l s); [|done].
  destruct l as [|c l]; [done|]. simpl. by rewrite expand_lits.
Qed.

Lemma scan_unfold fl r tpl budget prev s :
  re.scan fl r tpl budget prev s 0
  = let '(out, n, budget') := re.at_position fl r tpl budget prev s in
    out ++
    match s with
    | [] => []
    | c :: s' =>
      match n with
      | O => c :: re.scan fl r tpl budget' (Some c) s' O
      | S n' => re.scan fl r tpl budget' (Some c) s' n'
      end
    end.
Proof. by destruct s. Qed.

(** A replacement that is no shorter than the literal never shortens the
    text. *)
Lemma scan_lit_length fl l repl s :
  l ≠ [] → (length l ≤ length repl)%nat →
  ∀ prev skip,
    (length s
     ≤ length (re.scan fl (lit l) (re.TLit <$> repl) None prev s skip)
       + skip)%nat.
Proof.
  intros Hl Hlen. induction s as [|c s IH]; intros prev skip.
  - destruct skip; simpl; lia.
  - destruct skip as [|n].
    + rewrite scan_unfold, at_position_lit by done.
      destruct (re.is_prefix l (c :: s)).
      * destruct l as [|x l]; [done|]. simpl length.
        rewrite length_app. specialize (IH (Some c) (length l)).
        simpl in Hlen.
        change (re.RSeq (re.RChar x) (lit l)) with (lit (x :: l)). lia.
      * simpl. specialize (IH (Some c) 0%nat). lia.
    + simpl. specialize (IH (Some c) n). lia.
Qed.

(** Where the literal occurs, the result holds the replacement and is longer
    by at least the difference of their lengths. *)
Lemma scan_lit_occurs fl l repl pre post :
  l ≠ [] → (length l ≤ length repl)%nat →
  ∀ prev,
    let out := re.scan fl (lit l) (re.TLit <$> repl) None prev
                 (pre ++ l ++ post) 0 in
    occurs_in repl out
    ∧ (length (pre ++ l ++ post) + length repl ≤ length out + length l)%nat.
Proof.
  intros Hl Hlen. cbn zeta.
  assert (∀ s prev,
            re.is_prefix l s = true →
            occurs_in repl
              (re.scan fl (lit l) (re.TLit <$> repl) None prev s 0)
            ∧ (length s + length repl
               ≤ length (re.scan fl (lit l) (re.TLit <$> repl) None prev s 0)
                 + length l)%nat) as Hhere.
  { intros s prev Hp. rewrite scan_unfold, at_position_lit, Hp by done.
    split.
    - by exists [], (match s with
                     | [] => []
                     | c :: s' =>
                       match length l with
                       | O => c :: re.scan fl (lit l) (re.TLit <$> repl)
                                     None (Some c) s' 0
                       | S n' => re.scan fl (lit l) (re.TLit <$> repl)
                                   None (Some c) s' n'
                       end
                     end).
    - rewrite length_app.
      destruct l as [|x l]; [done|]. simpl length.
      destruct s as [|c s]; [done|].
      pose proof (scan_lit_length fl (x :: l) repl s Hl Hlen
                    (Some c) (length l)) as Hs.
      simpl in Hlen. simpl length.
      change (re.RSeq (re.RChar x) (lit l)) with (lit (x :: l)). lia. }
  induction pre as [|c pre IH]; intros prev.
  - apply Hhere. simpl. apply is_prefix_app.
  - destruct (re.is_prefix l ((c :: pre) ++ l ++ post)) eqn:Hp.
    + by apply Hhere.
    + rewrite scan_unfold, at_position_lit, Hp by done. simpl.
      destruct (IH (Some c)) as [(pre' & post' & ->) Hlen'].
      split; [by exists (c :: pre'), post'|].
      simpl. lia.
Qed.

(** ** Literal templates *)

Lemma tokenize_literal repl :
  is_literal repl = true → re.tokenize repl = re.TChar <$> repl.
Proof.
  induction repl as [|c repl IH]; simpl; [done|].
  intros [Hc Hr]%andb_true_iff. apply negb_true_iff in Hc.
  rewrite Hc, (IH Hr). reflexivity.
Qed.

Lemma parse_template_literal groups repl :
  re.parse_template groups None (re.TChar <$> repl) = Ok (re.TLit <$> repl).
Proof.
  induction repl as [|c repl IH]; simpl; [done|].
  change (list_fmap N re.token re.TChar repl) with (re.TChar <$> repl).
  by rewrite IH.
Qed.

(** A replacement without a backslash is its own template. *)
Lemma compile_template_literal groups repl :
  is_literal repl = true →
  re.compile_template groups repl = Ok (re.TLit <$> repl).
Proof.
  intros Hl. unfold re.compile_template.
  rewrite (tokenize_literal _ Hl). apply parse_template_literal.
Qed.


(** ** Anchors and group references *)

Lemma match_here_bol fl prev s ma :
  re.match_here fl (re.RSeq re.RBol re.REmpty) prev s ma
  = if re.at_bol fl (re.MState prev s ∅) && negb ma
    then Some (0%nat, ∅) else None.
Proof.
  unfold re.match_here. simpl.
  destruct (re.at_bol _ _); [|done].
  rewrite Nat.eqb_refl, andb_true_r.
  destruct ma; simpl; [done|]. by rewrite Nat.sub_diag.
Qed.

Lemma match_here_eol fl prev s ma :
  re.match_here fl (re.RSeq re.REol re.REmpty) prev s ma
  = if re.at_eol fl (re.MState prev s ∅) && negb ma
    then Some (0%nat, ∅) else None.
Proof.
  unfold re.match_here. simpl.
  destruct (re.at_eol _ _); [|done].
  rewrite Nat.eqb_refl, andb_true_r.
  destruct ma; simpl; [done|]. by rewrite Nat.sub_diag.
Qed.

Lemma at_position_bol fl x prev s :
  re.at_position fl (re.RSeq re.RBol re.REmpty) (re.TLit <$> x) None prev s
  = (if re.at_bol fl (re.MState prev s ∅) then x else [], 0%nat, None).
Proof.
  unfold re.at_position. simpl. rewrite !match_here_bol. simpl.
  rewrite andb_true_r, andb_false_r.
  destruct (re.at_bol _ _); [|done]. by rewrite expand_lits.
Qed.

Lemma at_position_eol fl x prev s :
  re.at_position fl (re.RSeq re.REol re.REmpty) (re.TLit <$> x) None prev s
  = (if re.at_eol fl (re.MState prev s ∅) then x else [], 0%nat, None).
Proof.
  unfold re.at_position. simpl. rewrite !match_here_eol. simpl.
  rewrite andb_true_r, andb_false_r.
  destruct (re.at_eol _ _); [|done]. by rewrite expand_lits.
Qed.

(** With [re.MULTILINE], replacing [^] puts the replacement at the start of
    every line. *)
Lemma scan_bol x s :
  ∀ prev,
    re.scan (re.Flags true) (re.RSeq re.RBol re.REmpty) (re.TLit <$> x)
      None prev s 0
    = (if re.at_bol (re.Flags true) (re.MState prev s ∅) then x else [])
      ++ after_newlines x s.
Proof.
  induction s as [|c s IH]; intros prev;
    rewrite scan_unfold, at_position_bol.
  - done.
  - f_equal. simpl. f_equal. rewrite IH. reflexivity.
Qed.

(** Without the flag it puts it at the start of the text only. *)
Lemma scan_bol_single_line x s :
  ∀ c,
    re.scan (re.Flags false) (re.RSeq re.RBol re.REmpty) (re.TLit <$> x)
      None (Some c) s 0
    = s.
Proof.
  induction s as [|d s IH]; intros c;
    rewrite scan_unfold, at_position_bol; simpl; [done|].
  by rewrite IH.
Qed.

(** With [re.MULTILINE], replacing [$] puts the replacement at the end of
    every line. *)
Lemma scan_eol x s :
  ∀ prev,
    re.scan (re.Flags true) (re.RSeq re.REol re.REmpty) (re.TLit <$> x)
      None prev s 0
    = at_line_ends x s.
Proof.
  induction s as [|c s IH]; intros prev;
    rewrite scan_unfold, at_position_eol; simpl.
  - by rewrite app_nil_r.
  - rewrite IH. unfold re.at_eol. simpl. by rewrite andb_true_r.
Qed.

(** A group holds the text its pattern consumed: when the whole pattern is
    one group, that is the whole match. *)
Lemma group_captures_match fl r0 prev s ma n caps :
  re.match_here fl (re.RSeq (re.RGroup (Some 1%nat) r0) re.REmpty) prev s ma
  = Some (n, caps) →
  caps !! 1%nat = Some (take n s).
Proof.
  unfold re.match_here. simpl.
  destruct (re.m fl r0 _ _) as [res|] eqn:Hm; [|done].
  intros [= <- <-].
  apply m_forward in Hm as (st' & Hlen & Hk). simpl in Hlen.
  destruct (ma && _); [done|].
  injection Hk as <-. simpl.
  rewrite lookup_insert_eq. reflexivity.
Qed.

(** Two ways of replacing that agree on every match give the same
    substitution. *)
Lemma Subst_ext fl r rep rep' prev ma s out :
  (∀ prev s ma n caps,
     re.match_here fl r prev s ma = Some (n, caps) →
     rep (take n s) caps = rep' (take n s) caps) →
  Subst fl r rep prev ma s out → Subst fl r rep' prev ma s out.
Proof.
  intros Hext.
  induction 1 as [prev ma Hm
                 |prev ma c s out Hm _ IH
                 |prev s caps out Hm _ IH
                 |prev ma s n caps out Hm _ IH].
  - by constructor.
  - by constructor.
  - rewrite (Hext _ _ _ _ _ Hm : rep [] caps = rep' [] caps).
    by apply Subst_empty.
  - rewrite (Hext _ _ _ _ _ Hm). by apply Subst_match.
Qed.

Lemma expand_reference q whole caps :
  re.expand (re.TRef 1 :: (re.TLit <$> q)) whole caps
  = default [] (caps !! 1%nat) ++ q.
Proof.
  unfold re.expand. simpl. f_equal. apply (expand_lits q whole caps).
Qed.

(** The template [\1] followed by a text without a backslash that does not
    start with a digit. *)
Lemma compile_template_reference groups q :
  (1 ≤ groups)%nat →
  is_literal q = true →
  (∀ d, head q = Some d → re.is_digit d = false) →
  re.compile_template groups (str "\1" ++ q)
  = Ok (re.TRef 1 :: (re.TLit <$> q)).
Proof.
  intros Hg Hl Hd. unfold re.compile_template.
  change (re.tokenize (str "\1" ++ q))
    with (re.TEsc (chr "1") :: re.tokenize q).
  rewrite (tokenize_literal q Hl).
  assert (re.group_ref groups 1 = Ok (re.TRef 1)) as Href.
  { unfold re.group_ref.
    by rewrite (proj2 (Nat.ltb_ge groups 1) Hg). }
  pose proof (parse_template_literal groups q) as Hq.
  destruct q as [|d q]; simpl.
  - match goal with
    | |- context [re.digit_value ?x] => change (re.digit_value x) with 1%nat
    end.
    by rewrite Href.
  - rewrite (Hd d eq_refl).
    match goal with
    | |- context [re.digit_value ?x] => change (re.digit_value x) with 1%nat
    end.
    rewrite Href. simpl in Hq. simpl.
    change (list_fmap N re.token re.TChar q) with (re.TChar <$> q) in *.
    destruct (re.parse_template groups None (re.TChar <$> q)) as [tpl|e|what];
      simpl in *; congruence.
Qed.

(** ** What [re] raises *)

Lemma escape_raises c next_digit st e :
  re.escape c next_digit st = Raise e → e = re_error.
Proof. unfold re.escape. repeat branch; congruence. Qed.

Lemma set_code_raises t e : re.set_code t = Raise e → e = re_error.
Proof.
  unfold re.set_code, re.class_escape. repeat branch; congruence.
Qed.

Lemma set_range_raises lo hi e :
  re.set_range lo hi = Raise e → e = re_error.
Proof. unfold re.set_range. repeat branch; congruence. Qed.

Lemma quantify_raises q greedy st e :
  re.quantify q greedy st = Raise e → e = re_error.
Proof. unfold re.quantify. repeat branch; congruence. Qed.

Lemma group_ref_raises groups n e :
  re.group_ref groups n = Raise e → e = re_error.
Proof. unfold re.group_ref. repeat branch; congruence. Qed.

Lemma parse_raises n :
  ∀ ts, (length ts ≤ n)%nat →
        ∀ md st e, re.parse md st ts = Raise e → e = re_error.
Proof.
  induction n as [|n IH]; intros ts Hn md st e;
    (destruct ts as [|tk ts]; [|try (simpl in Hn; lia)]);
    simpl; unfold mbind, result_bind;
    repeat first
    [ congruence
    | match goal with
      | |- re.parse _ _ _ = Raise _ → _ => apply IH; simpl in *; lia
      | H : re.escape _ _ _ = Raise _ |- _ =>
        apply escape_raises in H; subst
      | H : re.set_code _ = Raise _ |- _ =>
        apply set_code_raises in H; subst
      | H : re.set_range _ _ = Raise _ |- _ =>
        apply set_range_raises in H; subst
      | H : re.quantify _ _ _ = Raise _ |- _ =>
        apply quantify_raises in H; subst
      end
    | branch ].
Qed.

Lemma compile_raises pattern e :
  re.compile pattern = Raise e → e = re_error.
Proof. unfold re.compile. by apply (parse_raises _ _ (le_n _)). Qed.

Lemma parse_template_raises groups n :
  ∀ ts, (length ts ≤ n)%nat →
        ∀ name e, re.parse_template groups name ts = Raise e → e = re_error.
Proof.
  induction n as [|n IH]; intros ts Hn name e;
    (destruct ts as [|tk ts]; [|try (simpl in Hn; lia)]);
    simpl; unfold mbind, result_bind;
    repeat first
    [ congruence
    | match goal with
      | |- re.parse_template _ _ _ = Raise _ → _ =>
        apply IH; simpl in *; lia
      | H : re.parse_template _ _ _ = Raise _ |- _ =>
        apply IH in H; [subst|simpl in *; lia]
      | H : re.group_ref _ _ = Raise _ |- _ =>
        apply group_ref_raises in H; subst
      end
    | branch ].
Qed.

Lemma compile_template_raises groups repl e :
  re.compile_template groups repl = Raise e → e = re_error.
Proof.
  unfold re.compile_template. by apply (parse_template_raises _ _ _ (le_n _)).
Qed.

Lemma sub_compiled pattern repl s count fl r groups tpl :
  re.compile pattern = Ok (r, groups) →
  re.compile_template groups repl = Ok tpl →
  re.sub pattern repl s count fl
  = Ok (re.scan fl r tpl (match count with O => None | S _ => Some count end)
          None s 0).
Proof.
  intros Hc Ht. unfold re.sub. rewrite Hc. simpl. by rewrite Ht.
Qed.

(** C6.  One rule application is [re.sub] with no limit on the number of
    replacements and with [re.MULTILINE].  For a rule inside the embedded
    fragment of [re], which holds every rule of the script's table: when
    the rule compiles, the application returns, and its result is the
    substitution of the content: every non-overlapping match, from left to
    right, is replaced by the expanded template, and a character is copied
    only where no match starts; that result is unique.  It raises
    [re.error], and only that, when the pattern or the template does not
    compile.  With the flag, replacing [^] puts the replacement at the start
    of the content and after every newline, and replacing [$] puts it before
    every newline and at the end of the content; without the flag [^] is
    found at the start of the content only.  When the pattern is one group
    and the template is [\1] followed by a qualifier, every match is replaced
    by the matched text followed by the qualifier.  The last parts run these
    on sample texts, and show the difference with a single replacement. *)
Theorem C6_global_multiline_substitution :
  (∀ pattern repl content,
     match apply_rule (pattern, repl) content with
     | Ok out =>
       ∃ r groups tpl,
         re.compile pattern = Ok (r, groups)
         ∧ re.compile_template groups repl = Ok tpl
         ∧ Subst (re.Flags true) r (re.expand tpl) None false content out
         ∧ ∀ out',
             Subst (re.Flags true) r (re.expand tpl) None false content out' →
             out' = out
     | Raise e =>
       e = re_error
       ∧ in_fragment (pattern, repl) = true
       ∧ rule_compiles (pattern, repl) = false
     | Beyond _ => in_fragment (pattern, repl) = false
     end)
  ∧ (∀ pattern repl content,
       rule_compiles (pattern, repl) = true →
       ∃ out, apply_rule (pattern, repl) content = Ok out)
  ∧ Forall (λ entry, Forall (λ rule, rule_compiles rule = true) entry.2)
      file_fixes
  ∧ (∀ x content,
       is_literal x = true →
       apply_rule (str "^", x) content = Ok (at_line_starts x content))
  ∧ (∀ x content,
       is_literal x = true →
       apply_rule (str "$", x) content = Ok (at_line_ends x content))
  ∧ (∀ x content,
       is_literal x = true →
       re.sub (str "^") x content 0 (re.Flags false) = Ok (x ++ content))
  ∧ (∀ pattern r0 groups qualifier content,
       re.compile pattern
       = Ok (re.RSeq (re.RGroup (Some 1%nat) r0) re.REmpty, groups) →
       (1 ≤ groups)%nat →
       is_literal qualifier = true →
       (∀ d, head qualifier = Some d → re.is_digit d = false) →
       ∃ out,
         apply_rule (pattern, str "\1" ++ qualifier) content = Ok out
         ∧ Subst (re.Flags true)
             (re.RSeq (re.RGroup (Some 1%nat) r0) re.REmpty)
             (λ matched _, matched ++ qualifier) None false content out)
  ∧ apply_fixes [(str "^a$", str "X")] (str "a" ++ [LF] ++ str "ba" ++ [LF]
                                        ++ str "a")
    = Ok (str "X" ++ [LF] ++ str "ba" ++ [LF] ++ str "X")
  ∧ apply_rule (str "$", str ";") (str "a" ++ [LF] ++ str "b" ++ [LF])
    = Ok (str "a;" ++ [LF] ++ str "b;" ++ [LF] ++ str ";")
  ∧ re.sub (str "$") (str ";") (str "a" ++ [LF] ++ str "b" ++ [LF]) 0
      (re.Flags false)
    = Ok (str "a" ++ [LF] ++ str "b;" ++ [LF] ++ str ";")
  ∧ apply_fixes [(str "(foo|bar)", str "\1?")] (str "foo.x bar.y foo.z")
    = Ok (str "foo?.x bar?.y foo?.z")
  ∧ re.sub (str "a") (str "b") (str "aa") 1 (re.Flags true) = Ok (str "ba")
  ∧ apply_rule (str "a", str "b") (str "aa") = Ok (str "bb").
Proof.
  assert (re.compile (str "^") = Ok (re.RSeq re.RBol re.REmpty, 0%nat))
    as Hbol by (vm_compute; reflexivity).
  assert (re.compile (str "$") = Ok (re.RSeq re.REol re.REmpty, 0%nat))
    as Heol by (vm_compute; reflexivity).
  repeat apply conj.
  - intros pattern repl content.
    unfold apply_rule, re.sub, in_fragment, rule_compiles. simpl.
    destruct (re.compile pattern) as [[r groups]|e|what] eqn:Hc; simpl.
    + destruct (re.compile_template groups repl) as [tpl|e|what] eqn:Ht;
        simpl.
      * exists r, groups, tpl. split; [done|]. split; [done|]. split.
        -- apply scan_Subst.
        -- intros out' H.
           eapply Subst_functional; [exact H|apply scan_Subst].
      * split; [by eapply compile_template_raises|done].
      * done.
    + split; [by eapply compile_raises|done].
    + done.
  - intros pattern repl content. unfold apply_rule. cbn [fst snd].
    apply sub_compiles.
  - apply file_fixes_compile.
  - intros x content Hx. unfold apply_rule. cbn [fst snd].
    rewrite (sub_compiled _ _ content 0 (re.Flags true) _ _ _ Hbol
               (compile_template_literal 0 x Hx)).
    by rewrite scan_bol.
  - intros x content Hx. unfold apply_rule. cbn [fst snd].
    rewrite (sub_compiled _ _ content 0 (re.Flags true) _ _ _ Heol
               (compile_template_literal 0 x Hx)).
    by rewrite scan_eol.
  - intros x content Hx.
    rewrite (sub_compiled _ _ content 0 (re.Flags false) _ _ _ Hbol
               (compile_template_literal 0 x Hx)).
    rewrite scan_unfold, at_position_bol. simpl.
    destruct content as [|c content]; [done|].
    by rewrite scan_bol_single_line.
  - intros pattern r0 groups qualifier content Hc Hg Hl Hd.
    eexists. unfold apply_rule. cbn [fst snd]. split.
    + apply (sub_compiled _ _ content 0 (re.Flags true) _ _ _ Hc
               (compile_template_reference groups qualifier Hg Hl Hd)).
    + eapply Subst_ext; [|apply scan_Subst].
      intros prev s ma n caps Hm. simpl.
      rewrite expand_reference.
      by rewrite (group_captures_match _ _ _ _ _ _ _ Hm).
  - vm_compute. reflexivity.
  - vm_compute. reflexivity.
  - vm_compute. reflexivity.
  - vm_compute. reflexivity.
  - vm_compute. reflexivity.
  - vm_compute. reflexivity.
Qed.

(** ** The rule of the first entry *)

Lemma carousel_rule_compiles :
  carousel_fixes
  = [(str "const currentID = featuredIDs\[currentIndex\];", patched_lines)]
  ∧ re.compile (str "const currentID = featuredIDs\[currentIndex\];")
    = Ok (lit (str current_line), 0%nat)
  ∧ re.compile_template 0 patched_lines = Ok (re.TLit <$> patched_lines).
Proof. repeat apply conj; vm_compute; reflexivity. Qed.

Lemma carousel_apply content :
  apply_fixes carousel_fixes content
  = Ok (re.scan (re.Flags true) (lit (str current_line))
          (re.TLit <$> patched_lines) None None content 0).
Proof.
  destruct carousel_rule_compiles as (-> & Hc & Ht).
  unfold apply_fixes.
  by rewrite (sub_compiled _ _ content 0 (re.Flags true) _ _ _ Hc Ht).
Qed.

(** C2, as amended.  For every content that holds the line
    [const currentID = featuredIDs[currentIndex];], one application of the
    rule of the first entry gives a content that holds the line, an empty
    line and the guard line, and is longer; as that content holds the line
    again (the pattern is not anchored and the replacement begins with the
    line), a second application inserts the guard once more and gives a still
    longer content.  On the sample file both runs of [fix_file] return
    [True]: after the first the file has one guard, after the second two. *)
Theorem C2_guard_inserted_on_every_run :
  (∀ content,
     occurs_in (str current_line) content →
     ∃ out1 out2,
       apply_fixes carousel_fixes content = Ok out1
       ∧ occurs_in (str current_line ++ [LF; LF] ++ str guard_line) out1
       ∧ (length content < length out1)%nat
       ∧ apply_fixes carousel_fixes out1 = Ok out2
       ∧ occurs_in (str current_line ++ [LF; LF] ++ str guard_line) out2
       ∧ (length out1 < length out2)%nat)
  ∧ (let r1 := fix_file carousel carousel_fixes carousel_world in
     let r2 := fix_file carousel carousel_fixes r1.2 in
     r1.1 = Ok true
     ∧ data <$> files r1.2 !! carousel
       = Some (bytes_of ("  " +:+ current_line +:+ newline +:+ newline
                         +:+ guard_line +:+ newline
                         +:+ "  return currentID.name;" +:+ newline))
     ∧ r2.1 = Ok true
     ∧ data <$> files r2.2 !! carousel
       = Some (bytes_of ("  " +:+ current_line +:+ newline +:+ newline
                         +:+ guard_line +:+ newline +:+ newline
                         +:+ guard_line +:+ newline
                         +:+ "  return currentID.name;" +:+ newline))).
Proof.
  assert (str current_line ≠ []) as Hl by (vm_compute; discriminate).
  assert (length (str current_line) = 44%nat) as Hll by reflexivity.
  assert (length patched_lines = 76%nat) as Hlr by reflexivity.
  assert (∀ content,
            occurs_in (str current_line) content →
            ∃ out,
              apply_fixes carousel_fixes content = Ok out
              ∧ occurs_in patched_lines out
              ∧ (length content < length out)%nat) as Hstep.
  { intros content (pre & post & ->).
    eexists. split; [apply carousel_apply|].
    destruct (scan_lit_occurs (re.Flags true) (str current_line)
                patched_lines pre post Hl ltac:(rewrite Hll, Hlr; lia) None)
      as [Hocc Hlen].
    split; [exact Hocc|]. rewrite Hll, Hlr in Hlen. lia. }
  split.
  - intros content Hocc.
    destruct (Hstep content Hocc) as (out1 & Ha1 & Ho1 & Hlen1).
    assert (occurs_in (str current_line) out1) as Hocc1.
    { destruct Ho1 as (pre & post & ->).
      exists pre, (([LF; LF] ++ str guard_line) ++ post).
      unfold patched_lines. by rewrite <- !app_assoc. }
    destruct (Hstep out1 Hocc1) as (out2 & Ha2 & Ho2 & Hlen2).
    by exists out1, out2.
  - cbn zeta. repeat apply conj; vm_compute; reflexivity.
Qed.

(** C2 as stated fails: the second run on the sample file does not return
    [False], and it changes the file again. *)
Lemma C2_second_run_changes_again :
  let r1 := fix_file carousel carousel_fixes carousel_world in
  let r2 := fix_file carousel carousel_fixes r1.2 in
  r2.1 = Ok true
  ∧ r2.1 ≠ Ok false
  ∧ files r2.2 !! carousel ≠ files r1.2 !! carousel.
Proof.
  cbn zeta.
  assert ((fix_file carousel carousel_fixes
             (fix_file carousel carousel_fixes carousel_world).2).1
          = Ok true) as Hr by (vm_compute; reflexivity).
  split; [exact Hr|]. split.
  - rewrite Hr. discriminate.
  - vm_compute. discriminate.
Qed.

(** ** A run that finds nothing to do *)

Lemma read_text_files w w' filepath :
  files w' = files w → read_text w' filepath = read_text w filepath.
Proof. unfold read_text. by intros ->. Qed.

Lemma fixed_line_not_diagnostic p e q : fixed_line q ≠ diagnostic p e.
Proof. unfold diagnostic, fixed_line, plain. discriminate. Qed.

Lemma fixed_line_not_header q : fixed_line q ≠ header.
Proof.
  unfold header, fixed_line, plain, check_mark. simpl. discriminate.
Qed.

Lemma fixed_line_not_completion q : fixed_line q ≠ completion.
Proof.
  unfold completion, fixed_line, plain, check_mark, newline. simpl.
  discriminate.
Qed.

(** When none of its patterns matches the content of its file, a round of
    the loop writes nothing and prints at most a diagnostic, and [fix_file]
    does not return [True]. *)
Lemma quiet_step filepath fixes w :
  (∀ content, read_text w filepath = Ok content →
              Forall (λ rule, no_match rule.1 content) fixes) →
  (fix_file filepath fixes w).1 ≠ Ok true
  ∧ let w' := (driver_step (filepath, fixes) w).2 in
    files w' = files w
    ∧ (∃ lines, stdout w' = stdout w ++ lines
                ∧ ∀ q, fixed_line q ∉ lines)
    ∧ ∃ evs, calls w' = calls w ++ evs
             ∧ ∀ q, count_rewrites q evs = 0%nat.
Proof.
  intros Hno. unfold driver_step. rewrite bind_run, fix_file_run.
  assert (∀ e q, fixed_line q ∉ [diagnostic filepath e]) as Hd.
  { intros e q Hin. apply list_elem_of_singleton in Hin.
    by apply (fixed_line_not_diagnostic filepath e q). }
  assert (∀ q, fixed_line q ∉ []) as Hnil
    by (intros q Hin; by apply elem_of_nil in Hin).
  assert (∀ e w1 evs,
            files w1 = files w → stdout w1 = stdout w →
            calls w1 = calls w ++ evs →
            (∀ q, count_rewrites q evs = 0%nat) →
            (report filepath e w1).1 ≠ Ok true
            ∧ let w' := (let (r, w2) := report filepath e w1 in
                         match r with
                         | Ok a =>
                           (if a
                            then print (plain (check_mark +:+ " Fixed "
                                               +:+ filepath))
                            else mret ()) w2
                         | Raise e0 => (Raise e0, w2)
                         | Beyond what => (Beyond what, w2)
                         end).2 in
              files w' = files w
              ∧ (∃ lines, stdout w' = stdout w ++ lines
                          ∧ ∀ q, fixed_line q ∉ lines)
              ∧ ∃ evs, calls w' = calls w ++ evs
                       ∧ ∀ q, count_rewrites q evs = 0%nat) as Hrep.
  { intros e w1 evs Hf Hs Hc He. rewrite report_run.
    destruct (refuses _ _ _); simpl.
    - split; [done|]. split; [done|]. split.
      + exists []. by rewrite app_nil_r.
      + eauto.
    - split; [done|]. split; [done|]. split.
      + exists [diagnostic filepath e]. by rewrite Hs.
      + eauto. }
  destruct (read_text w filepath) as [original|e|what]; simpl.
  2: { by apply (Hrep e _ [EvOpen filepath ModeR]). }
  2: { split; [done|]. split; [done|]. split.
       - exists []. by rewrite app_nil_r.
       - eauto. }
  specialize (Hno original eq_refl).
  assert (∀ rule, rule ∈ fixes → no_match rule.1 original) as Hno'
    by (by apply Forall_forall).
  pose proof (apply_fixes_no_match fixes original) as Hsame.
  destruct (apply_fixes fixes original) as [content|e|what].
  - rewrite (Hsame content Hno' eq_refl), decide_True by done. simpl.
    split; [done|]. split; [done|]. split.
    + exists []. by rewrite app_nil_r.
    + eauto.
  - by apply (Hrep e _ [EvOpen filepath ModeR; EvRead filepath original]).
  - simpl. split; [done|]. split; [done|]. split.
    + exists []. by rewrite app_nil_r.
    + eauto.
Qed.

Lemma quiet_loop table w :
  Forall (λ entry, ∀ content,
            read_text w entry.1 = Ok content →
            Forall (λ rule, no_match rule.1 content) entry.2) table →
  let w' := (for_each table driver_step w).2 in
  files w' = files w
  ∧ (∃ lines, stdout w' = stdout w ++ lines ∧ ∀ q, fixed_line q ∉ lines)
  ∧ ∃ evs, calls w' = calls w ++ evs ∧ ∀ q, count_rewrites q evs = 0%nat.
Proof.
  revert w. induction table as [|[filepath fixes] table IH]; intros w Hall.
  - simpl. split; [done|]. split.
    + exists []. rewrite app_nil_r. split; [done|].
      intros q Hin. by apply elem_of_nil in Hin.
    + exists []. by rewrite app_nil_r.
  - apply Forall_cons in Hall as [Hhere Hall]. simpl in Hhere.
    cbn zeta. rewrite for_each_cons.
    destruct (quiet_step filepath fixes w Hhere)
      as (_ & Hf & (lines & Hs & Hl) & evs & Hc & He).
    destruct (driver_step (filepath, fixes) w) as [[[]|e|what] w1];
      simpl in Hf, Hs, Hc; [|by eauto 10|by eauto 10].
    destruct (IH w1) as (Hf' & (lines' & Hs' & Hl') & evs' & Hc' & He').
    { eapply Forall_impl; [exact Hall|].
      intros entry H content Hread. apply H.
      by rewrite <- (read_text_files w w1). }
    split; [congruence|]. split.
    + exists (lines ++ lines'). split.
      * by rewrite Hs', Hs, <- app_assoc.
      * intros q [Hin|Hin]%elem_of_app; [by eapply Hl|by eapply Hl'].
    + exists (evs ++ evs'). split.
      * by rewrite Hc', Hc, <- app_assoc.
      * intros q. by rewrite count_rewrites_app, He, He'.
Qed.

Lemma quiet_driver table w :
  Forall (λ entry, ∀ content,
            read_text w entry.1 = Ok content →
            Forall (λ rule, no_match rule.1 content) entry.2) table →
  let w' := (driver table w).2 in
  files w' = files w
  ∧ (∃ lines, stdout w' = stdout w ++ lines ∧ ∀ q, fixed_line q ∉ lines)
  ∧ ∃ evs, calls w' = calls w ++ evs ∧ ∀ q, count_rewrites q evs = 0%nat.
Proof.
  intros Hall. cbn zeta. rewrite driver_run, print_run.
  destruct (refuses (sys_stdout w) (stdout w) header).
  { simpl. split; [done|]. split.
    - exists []. rewrite app_nil_r. split; [done|].
      intros q Hin. by apply elem_of_nil in Hin.
    - exists []. by rewrite app_nil_r. }
  set (w0 := World (files w) (free_space w) _ (calls w) _).
  destruct (quiet_loop table w0) as (Hf & (lines & Hs & Hl) & evs & Hc & He);
    [exact Hall|].
  assert (∀ q, fixed_line q ∉ [header] ++ lines) as Hl0.
  { intros q [Hin|Hin]%elem_of_app; [|by eapply Hl].
    apply list_elem_of_singleton in Hin.
    by apply (fixed_line_not_header q). }
  destruct (for_each table driver_step w0) as [[[]|e|what] w1];
    simpl in Hf, Hs, Hc; simpl.
  - rewrite print_run.
    destruct (refuses (sys_stdout w1) (stdout w1) completion); simpl.
    + split; [done|]. split; [|eauto].
      exists ([header] ++ lines). split; [by rewrite Hs, <- app_assoc|done].
    + split; [done|]. split; [|eauto].
      exists (([header] ++ lines) ++ [completion]). split.
      * by rewrite Hs, <- !app_assoc.
      * intros q [Hin|Hin]%elem_of_app; [by eapply Hl0|].
        apply list_elem_of_singleton in Hin.
        by apply (fixed_line_not_completion q).
  - split; [done|]. split; [|eauto].
    exists ([header] ++ lines). split; [by rewrite Hs, <- app_assoc|done].
  - split; [done|]. split; [|eauto].
    exists ([header] ++ lines). split; [by rewrite Hs, <- app_assoc|done].
Qed.

(** C8, as amended.  After a first run, a second run over the same table
    changes no file, opens none for writing, prints no "Fixed" line and gets
    [True] from [fix_file] for no entry, provided that for every entry none
    of its patterns matches anywhere in the content the first run left in
    its file.  [fix_file] returns [False] for an entry whenever the stream
    takes every line and the rules of the entry are inside the fragment. *)
Theorem C8_second_run_unchanged table w :
  let w1 := (driver table w).2 in
  Forall (λ entry, ∀ content,
            read_text w1 entry.1 = Ok content →
            Forall (λ rule, no_match rule.1 content) entry.2) table →
  files (driver table w1).2 = files w1
  ∧ Forall (λ entry,
              (fix_file entry.1 entry.2 w1).1 ≠ Ok true
              ∧ (accepting w1 →
                 Forall (λ rule, in_fragment rule = true) entry.2 →
                 (fix_file entry.1 entry.2 w1).1 = Ok false)) table
  ∧ (∀ filepath, fixed_line filepath ∉ new_output (driver table) w1)
  ∧ (∀ filepath,
       count_rewrites filepath (new_calls (driver table) w1) = 0%nat).
Proof.
  cbn zeta. set (w1 := (driver table w).2). intros Hall.
  destruct (quiet_driver table w1 Hall)
    as (Hf & (lines & Hs & Hl) & evs & Hc & He).
  split; [done|]. split; [|split].
  - eapply Forall_impl; [exact Hall|].
    intros [filepath fixes] H. simpl in *.
    destruct (quiet_step filepath fixes w1 H) as [Hr _].
    split; [done|]. intros Hacc Hin.
    destruct (fix_file_total filepath fixes w1 Hacc Hin) as [Hok _].
    rewrite Hok in *.
    by destruct (changed_flag (outcome_of w1 filepath fixes)).
  - intros filepath. by rewrite (new_output_app _ _ _ Hs).
  - intros filepath. by rewrite (new_calls_app _ _ _ Hc).
Qed.

Lemma C8_second_run_unchanged_witness :
  let w1 := (driver pool_table pool_world).2 in
  data <$> files w1 !! "lib/database/secure-db-client.ts"
  = Some (bytes_of "return await this.pool!.query(sql);")
  ∧ files (driver pool_table w1).2 = files w1.
Proof.
  cbn zeta. split; [vm_compute; reflexivity|].
  apply (C8_second_run_unchanged pool_table pool_world).
  constructor; [|constructor].
  intros content Hread. vm_compute in Hread. injection Hread as <-.
  constructor; [vm_compute; reflexivity|constructor].
Defined.

(** C8 as stated fails.  The replacement [b] holds no match of the pattern
    [ab], yet on a file holding [aab] the first run leaves [ab] and the
    second run changes the file again and prints its "Fixed" line: a
    replacement can complete a match with the text around it.  The script's
    own table does not satisfy the assumption either: the replacement of its
    first rule holds a match of the rule's pattern, and the second run on the
    sample file reports the file as fixed again.  And where no pattern
    matches, a second run need not get [False] from [fix_file]: with a
    template that does not compile and a stream that refuses the diagnostic,
    [fix_file] raises. *)
Lemma C8_stable_replacement_is_not_enough :
  Forall (λ entry, Forall (λ rule, no_match rule.1 rule.2) entry.2) ab_table
  ∧ (let w1 := (driver ab_table ab_world).2 in
     data <$> files w1 !! "f.ts" = Some (bytes_of "ab")
     ∧ new_output (driver ab_table) w1
       = [header; fixed_line "f.ts"; completion]
     ∧ data <$> files (driver ab_table w1).2 !! "f.ts" = Some (bytes_of "b"))
  ∧ ¬ Forall (λ rule, no_match rule.1 rule.2) carousel_fixes
  ∧ fixed_line carousel ∈ new_output main (main carousel_world).2
  ∧ (let w1 := (driver cafe_table cafe_world).2 in
     Forall (λ entry, ∀ content,
               read_text w1 entry.1 = Ok content →
               Forall (λ rule, no_match rule.1 content) entry.2) cafe_table
     ∧ (fix_file cafe broken_template w1).1 = Raise UnicodeEncodeError).
Proof.
  repeat apply conj.
  - repeat constructor.
  - vm_compute. reflexivity.
  - vm_compute. reflexivity.
  - vm_compute. reflexivity.
  - intros H. apply Forall_cons in H as [H _]. vm_compute in H. discriminate.
  - assert (new_output main (main carousel_world).2 !! 1%nat
            = Some (fixed_line carousel)) as H by (vm_compute; reflexivity).
    eapply list_elem_of_lookup_2. exact H.
  - constructor; [|constructor].
    intros content Hread. vm_compute in Hread. injection Hread as <-.
    constructor; [vm_compute; reflexivity|constructor].
  - vm_compute. reflexivity.
Qed.

(** ** The codec *)

Lemma decode_encoded_char c cs rest :
  utf8.encode_char c = Some cs →
  utf8.decode (cs ++ rest) = cons c <$> utf8.decode rest.
Proof.
  unfold utf8.encode_char, utf8.in_range.
  destruct (c <? 128) eqn:H1.
  { intros [= <-]. simpl. by rewrite H1. }
  destruct (c <? 2048) eqn:H2.
  { intros [= <-]. bool_N. simpl.
    assert ((192 + c / 64 <? 128) = false) as -> by (apply N.ltb_ge; div_lia).
    assert ((192 + c / 64 <? 194) = false) as -> by (apply N.ltb_ge; div_lia).
    assert ((192 + c / 64 <? 224) = true) as -> by (apply N.ltb_lt; div_lia).
    assert (utf8.is_cont (128 + c mod 64) = true) as ->
      by (unfold utf8.is_cont; apply andb_true_iff; split;
          [apply N.leb_le|apply N.leb_le]; div_lia).
    do 2 f_equal. div_lia. }
  destruct (c <? 65536) eqn:H3.
  { destruct ((55296 <=? c) && (c <=? 57343)) eqn:Hs; [done|].
    intros [= <-]. bool_N. simpl.
    assert ((224 + c / 4096 <? 128) = false) as -> by (apply N.ltb_ge; div_lia).
    assert ((224 + c / 4096 <? 194) = false) as -> by (apply N.ltb_ge; div_lia).
    assert ((224 + c / 4096 <? 224) = false) as -> by (apply N.ltb_ge; div_lia).
    assert ((224 + c / 4096 <? 240) = true) as -> by (apply N.ltb_lt; div_lia).
    assert (utf8.in_range
              (if 224 + c / 4096 =? 224 then 160 else 128)
              (if 224 + c / 4096 =? 237 then 159 else 191)
              (128 + (c / 64) mod 64) = true) as ->.
    { unfold utf8.in_range. apply andb_true_iff.
      apply andb_false_iff in Hs.
      destruct (224 + c / 4096 =? 224) eqn:E1;
        destruct (224 + c / 4096 =? 237) eqn:E2; bool_N;
        split; apply N.leb_le; try div_lia.
      destruct Hs as [Hs|Hs]; bool_N; div_lia. }
    assert (utf8.is_cont (128 + c mod 64) = true) as ->
      by (unfold utf8.is_cont; apply andb_true_iff; split;
          apply N.leb_le; div_lia).
    simpl. do 2 f_equal. div_lia. }
  destruct (c <? 1114112) eqn:H4; [|done].
  intros [= <-]. bool_N. simpl.
  assert ((240 + c / 262144 <? 128) = false) as -> by (apply N.ltb_ge; div_lia).
  assert ((240 + c / 262144 <? 194) = false) as -> by (apply N.ltb_ge; div_lia).
  assert ((240 + c / 262144 <? 224) = false) as -> by (apply N.ltb_ge; div_lia).
  assert ((240 + c / 262144 <? 240) = false) as -> by (apply N.ltb_ge; div_lia).
  assert ((240 + c / 262144 <? 245) = true) as -> by (apply N.ltb_lt; div_lia).
  assert (utf8.in_range
            (if 240 + c / 262144 =? 240 then 144 else 128)
            (if 240 + c / 262144 =? 244 then 143 else 191)
            (128 + (c / 4096) mod 64) = true) as ->.
  { unfold utf8.in_range. apply andb_true_iff.
    destruct (240 + c / 262144 =? 240) eqn:E1;
      destruct (240 + c / 262144 =? 244) eqn:E2; bool_N;
      split; apply N.leb_le; div_lia. }
  assert (utf8.is_cont (128 + (c / 64) mod 64) = true) as ->
    by (unfold utf8.is_cont; apply andb_true_iff; split;
        apply N.leb_le; div_lia).
  assert (utf8.is_cont (128 + c mod 64) = true) as ->
    by (unfold utf8.is_cont; apply andb_true_iff; split;
        apply N.leb_le; div_lia).
  simpl. do 2 f_equal. div_lia.
Qed.

Lemma decode_encoded t bs :
  utf8.encode t = Some bs → utf8.decode bs = Some t.
Proof.
  revert bs. induction t as [|c t IH]; intros bs; simpl.
  - by intros [= <-].
  - destruct (utf8.encode_char c) as [cs|] eqn:Hc; [|done].
    destruct (utf8.encode t) as [rest|]; [|done].
    intros [= <-]. rewrite (decode_encoded_char c cs rest Hc).
    by rewrite (IH rest eq_refl).
Qed.

Lemma encode_cons c t cs rest :
  utf8.encode_char c = Some cs → utf8.encode t = Some rest →
  utf8.encode (c :: t) = Some (cs ++ rest).
Proof. intros Hc Ht. simpl. by rewrite Hc, Ht. Qed.

Lemma encode_decoded_aux n :
  ∀ bs t, (length bs ≤ n)%nat →
          utf8.decode bs = Some t → utf8.encode t = Some bs.
Proof.
  induction n as [|n IH]; intros bs t Hn.
  { destruct bs; [|simpl in Hn; lia]. by intros [= <-]. }
  destruct bs as [|b0 t0]; [by intros [= <-]|].
  simpl in Hn. unfold utf8.decode; fold utf8.decode.
  destruct (b0 <? 128) eqn:H1.
  { intros (t' & Ht' & ->)%fmap_Some.
    apply (encode_cons b0 t' [b0] t0).
    - unfold utf8.encode_char. by rewrite H1.
    - apply IH; [lia|done]. }
  destruct (b0 <? 194) eqn:H2; [done|].
  destruct (b0 <? 224) eqn:H3.
  { destruct t0 as [|b1 t1]; [done|].
    destruct (utf8.is_cont b1) eqn:Hc1; [|done].
    intros (t' & Ht' & ->)%fmap_Some.
    unfold utf8.is_cont in Hc1. bool_N.
    apply (encode_cons _ t' [b0; b1] t1).
    - unfold utf8.encode_char.
      replace (_ <? 128) with false by (symmetry; apply N.ltb_ge; lia).
      replace (_ <? 2048) with true by (symmetry; apply N.ltb_lt; lia).
      f_equal. f_equal; [|f_equal]; div_lia.
    - apply IH; [simpl in Hn; lia|done]. }
  destruct (b0 <? 240) eqn:H4.
  { destruct t0 as [|b1 [|b2 t2]]; [done|done|].
    destruct (utf8.in_range _ _ b1 && utf8.is_cont b2) eqn:Hc; [|done].
    intros (t' & Ht' & ->)%fmap_Some.
    unfold utf8.in_range, utf8.is_cont in Hc. bool_N.
    apply (encode_cons _ t' [b0; b1; b2] t2).
    - unfold utf8.encode_char, utf8.in_range.
      destruct (b0 =? 224) eqn:E1; destruct (b0 =? 237) eqn:E2; bool_N;
        (replace (_ <? 128) with false by (symmetry; apply N.ltb_ge; lia));
        (replace (_ <? 2048) with false by (symmetry; apply N.ltb_ge; lia));
        (replace (_ <? 65536) with true by (symmetry; apply N.ltb_lt; lia));
        (replace (_ && _) with false
           by (symmetry; apply andb_false_iff;
               rewrite N.leb_gt, N.leb_gt; lia));
        (f_equal; f_equal; [|f_equal; [|f_equal]]; div_lia).
    - apply IH; [simpl in Hn; lia|done]. }
  destruct (b0 <? 245) eqn:H5; [|done].
  destruct t0 as [|b1 [|b2 [|b3 t3]]]; [done|done|done|].
  destruct (utf8.in_range _ _ b1 && utf8.is_cont b2 && utf8.is_cont b3)
    eqn:Hc; [|done].
  intros (t' & Ht' & ->)%fmap_Some.
  unfold utf8.in_range, utf8.is_cont in Hc. bool_N.
  apply (encode_cons _ t' [b0; b1; b2; b3] t3).
  - unfold utf8.encode_char, utf8.in_range.
    destruct (b0 =? 240) eqn:E1; destruct (b0 =? 244) eqn:E2; bool_N;
      (replace (_ <? 128) with false by (symmetry; apply N.ltb_ge; lia));
      (replace (_ <? 2048) with false by (symmetry; apply N.ltb_ge; lia));
      (replace (_ <? 65536) with false by (symmetry; apply N.ltb_ge; lia));
      (replace (_ <? 1114112) with true by (symmetry; apply N.ltb_lt; lia));
      (f_equal; f_equal; [|f_equal; [|f_equal; [|f_equal]]]; div_lia).
  - apply IH; [simpl in Hn; lia|done].
Qed.

Lemma encode_decoded bs t :
  utf8.decode bs = Some t → utf8.encode t = Some bs.
Proof. by apply (encode_decoded_aux (length bs)). Qed.

Lemma encode_char_bytes c cs :
  utf8.encode_char c = Some cs → Forall (λ b, b < 256) cs.
Proof.
  unfold utf8.encode_char, utf8.in_range.
  destruct (c <? 128) eqn:H1.
  { intros [= <-]. bool_N. repeat constructor. lia. }
  destruct (c <? 2048) eqn:H2.
  { intros [= <-]. bool_N. repeat constructor; div_lia. }
  destruct (c <? 65536) eqn:H3.
  { destruct (_ && _); [done|].
    intros [= <-]. bool_N. repeat constructor; div_lia. }
  destruct (c <? 1114112) eqn:H4; [|done].
  intros [= <-]. bool_N. repeat constructor; div_lia.
Qed.

Lemma encode_bytes t bs :
  utf8.encode t = Some bs → Forall (λ b, b < 256) bs.
Proof.
  revert bs. induction t as [|c t IH]; intros bs; simpl.
  - intros [= <-]. constructor.
  - destruct (utf8.encode_char c) as [cs|] eqn:Hc; [|done].
    destruct (utf8.encode t) as [rest|]; [|done].
    intros [= <-]. apply Forall_app. split.
    + by eapply encode_char_bytes.
    + by apply IH.
Qed.

Lemma byte_of_to_N b : byte_of_N (Byte.to_N b) = b.
Proof. unfold byte_of_N. by rewrite Byte.of_to_N. Qed.

Lemma byte_to_of_N n : n < 256 → Byte.to_N (byte_of_N n) = n.
Proof.
  intros Hn. unfold byte_of_N.
  destruct (Byte.of_N n) as [b|] eqn:Hb.
  - by apply Byte.to_of_N.
  - apply Byte.of_N_None_iff in Hb. lia.
Qed.

Lemma encode_utf8_decoded bs t :
  decode_utf8 bs = Some t → encode_utf8 t = Some bs.
Proof.
  unfold decode_utf8, encode_utf8.
  intros Hd. rewrite (encode_decoded _ _ Hd). simpl. f_equal.
  rewrite map_map. clear Hd.
  induction bs as [|b bs IH]; simpl; [done|].
  by rewrite byte_of_to_N, IH.
Qed.

Lemma decode_utf8_encoded t bs :
  encode_utf8 t = Some bs → decode_utf8 bs = Some t.
Proof.
  unfold decode_utf8, encode_utf8. intros He.
  destruct (utf8.encode t) as [ns|] eqn:Hn; [|done].
  simpl in He. injection He as <-.
  rewrite map_map.
  replace (map (λ x, Byte.to_N (byte_of_N x)) ns) with ns.
  - by apply decode_encoded.
  - pose proof (encode_bytes _ _ Hn) as Hb. clear Hn.
    induction Hb as [|n ns Hlt _ IH]; simpl; [done|].
    by rewrite byte_to_of_N, <- IH.
Qed.

(** X1.  The codec of lines 11 and 19 loses nothing: a file that decodes
    encodes back to the same bytes, and a text that encodes decodes back to
    the same text. *)
Theorem X1_utf8_round_trip :
  (∀ bs t, decode_utf8 bs = Some t → encode_utf8 t = Some bs)
  ∧ (∀ t bs, encode_utf8 t = Some bs → decode_utf8 bs = Some t).
Proof.
  split; [apply encode_utf8_decoded|apply decode_utf8_encoded].
Qed.

(** ** Characters of a substitution *)

Lemma encode_char_scalar c :
  is_Some (utf8.encode_char c) ↔ is_scalar c = true.
Proof.
  unfold utf8.encode_char, utf8.in_range, is_scalar.
  destruct (c <? 128) eqn:H1; destruct (c <? 2048) eqn:H2;
    destruct (c <? 65536) eqn:H3; destruct (c <? 1114112) eqn:H4;
    destruct (55296 <=? c) eqn:H5; destruct (c <=? 57343) eqn:H6;
    destruct (c <? 55296) eqn:H7; destruct (57343 <? c) eqn:H8;
    bool_N; simpl; split; intros H; try done; try (by inversion H);
    try lia; eauto.
Qed.

Lemma encode_scalars t :
  is_Some (utf8.encode t) ↔ forallb is_scalar t = true.
Proof.
  induction t as [|c t IH]; simpl.
  - split; eauto.
  - rewrite andb_true_iff, <- IH, <- encode_char_scalar.
    destruct (utf8.encode_char c); destruct (utf8.encode t); split;
      try (intros [[? ?] ?]; congruence);
      try (intros [? [? ?]]; congruence);
      try (intros [? ?]; congruence); eauto.
Qed.

Lemma encode_utf8_scalars t :
  is_Some (encode_utf8 t) ↔ forallb is_scalar t = true.
Proof.
  rewrite <- encode_scalars. unfold encode_utf8.
  destruct (utf8.encode t); simpl; split; intros [? ?]; eauto; done.
Qed.

Lemma decode_scalars bs t :
  decode_utf8 bs = Some t → forallb is_scalar t = true.
Proof.
  intros Hd. apply encode_utf8_scalars.
  rewrite (encode_utf8_decoded _ _ Hd). eauto.
Qed.

(** What [universal_newlines] yields holds no CR, and only characters of its
    argument and LF. *)
Lemma universal_newlines_chars (P : N → Prop) n :
  P LF →
  ∀ t, (length t ≤ n)%nat → Forall P t →
       Forall (λ c, P c ∧ c ≠ CR) (universal_newlines t).
Proof.
  intros HLF. induction n as [|n IH]; intros t Hn Ht.
  { destruct t; [constructor|simpl in Hn; lia]. }
  destruct t as [|c t]; [constructor|].
  simpl in Hn. apply Forall_cons in Ht as [Hc Ht].
  unfold universal_newlines; fold universal_newlines.
  destruct (c =? CR) eqn:Hcr.
  - destruct t as [|d t].
    + repeat constructor; done.
    + apply Forall_cons in Ht as [Hd Ht]. simpl in Hn.
      destruct (d =? LF); constructor; try (split; done);
        apply IH; try (simpl; lia); try done.
      by constructor.
  - constructor.
    + split; [done|]. by apply N.eqb_neq.
    + apply IH; [lia|done].
Qed.

Lemma at_position_chars (P : N → Prop) fl r repl budget prev s :
  Forall P repl →
  Forall P (re.at_position fl r (re.TLit <$> repl) budget prev s).1.1.
Proof.
  intros Hr. unfold re.at_position.
  destruct (re.exhausted budget); [constructor|].
  destruct (re.match_here fl r prev s false) as [[[|n] caps]|]; simpl.
  - destruct (re.exhausted (re.spend budget)); simpl;
      [by rewrite expand_lits|].
    destruct (re.match_here fl r prev s true) as [[[|n] caps']|];
      simpl; rewrite ?expand_lits; try done.
    by apply Forall_app.
  - by rewrite expand_lits.
  - constructor.
Qed.

(** With a literal replacement, the result of a substitution is made of
    characters of the subject and of the replacement. *)
Lemma scan_chars (P : N → Prop) fl r repl s :
  Forall P repl → Forall P s →
  ∀ budget prev skip,
    Forall P (re.scan fl r (re.TLit <$> repl) budget prev s skip).
Proof.
  intros Hr. induction 1 as [|c s Hc Hs IH]; intros budget prev skip.
  - destruct skip; simpl; [|constructor].
    pose proof (at_position_chars P fl r repl budget prev [] Hr) as Hp.
    destruct (re.at_position _ _ _ _ _ _) as [[out n] budget'].
    simpl in *. by rewrite app_nil_r.
  - destruct skip as [|k]; simpl; [|apply IH].
    pose proof (at_position_chars P fl r repl budget prev (c :: s) Hr) as Hp.
    destruct (re.at_position _ _ _ _ _ _) as [[out n] budget'].
    simpl in *. apply Forall_app. split; [done|].
    destruct n; [constructor; [done|]|]; apply IH.
Qed.

Lemma apply_fixes_chars (P : N → Prop) fixes :
  Forall (λ rule, is_literal rule.2 = true ∧ Forall P rule.2) fixes →
  ∀ content out,
    Forall P content → apply_fixes fixes content = Ok out → Forall P out.
Proof.
  induction 1 as [|[pattern repl] fixes [Hl Hr] _ IH];
    intros content out Hc; simpl.
  - by intros [= <-].
  - simpl in Hl, Hr. unfold re.sub.
    destruct (re.compile pattern) as [[r groups]|e|what]; simpl;
      [|done|done].
    rewrite (compile_template_literal groups repl Hl). simpl.
    apply IH. by apply scan_chars.
Qed.

(** ** The calls of a run, entry by entry *)


(** The calls of [fix_file]: it opens the file and, if it could read it,
    stops there or goes on with the opening for writing and the write. *)
Lemma fix_file_log filepath fixes w :
  match read_text w filepath with
  | Ok original =>
    ∃ evs,
      new_calls (fix_file filepath fixes) w
      = [EvOpen filepath ModeR; EvRead filepath original] ++ evs
      ∧ (evs = []
         ∨ ∃ content,
             apply_fixes fixes original = Ok content
             ∧ content ≠ original
             ∧ (evs = [EvOpen filepath ModeW]
                ∨ evs = [EvOpen filepath ModeW; EvWrite filepath content]))
  | _ => new_calls (fix_file filepath fixes) w = [EvOpen filepath ModeR]
  end.
Proof.
  unfold new_calls. rewrite fix_file_run.
  destruct (read_text w filepath) as [original|e|what]; simpl.
  2: { rewrite report_run. destruct (refuses _ _ _); simpl;
         by rewrite drop_app_length. }
  2: { by rewrite drop_app_length. }
  destruct (apply_fixes fixes original) as [content|e|what]; simpl.
  2: { rewrite report_run. exists [].
       destruct (refuses _ _ _); simpl; rewrite drop_app_length; auto. }
  2: { exists []. rewrite drop_app_length. auto. }
  destruct (decide (content = original)) as [->|Hne]; simpl.
  { exists []. rewrite drop_app_length. auto. }
  set (w1 := logged _ w).
  destruct (write_back_frame filepath content w1) as (_ & _ & _ & Hc).
  destruct (write_back filepath content w1) as [[[]|e|what] w2];
    rewrite ?report_run; try destruct (refuses _ _ _);
    simpl in *; destruct Hc as [-> | ->];
    rewrite <- app_assoc, drop_app_length; simpl;
    eexists; (split; [reflexivity|]); right; exists content; auto.
Qed.


Lemma fix_file_writes filepath fixes w q content :
  EvWrite q content ∈ new_calls (fix_file filepath fixes) w →
  q = filepath
  ∧ ∃ original,
      read_text w filepath = Ok original
      ∧ apply_fixes fixes original = Ok content
      ∧ content ≠ original.
Proof.
  pose proof (fix_file_log filepath fixes w) as Hlog.
  destruct (read_text w filepath) as [original|e|what].
  - destruct Hlog as (evs & -> & [->|(content' & Ha & Hne & [->| ->])]);
      intros Hin; elem_cases Hin.
    simplify_eq. eauto.
  - rewrite Hlog. intros Hin. elem_cases Hin.
  - rewrite Hlog. intros Hin. elem_cases Hin.
Qed.

(** The "Fixed" line adds no call. *)
Lemma driver_step_calls filepath fixes w :
  calls (driver_step (filepath, fixes) w).2
  = calls (fix_file filepath fixes w).2.
Proof.
  unfold driver_step. rewrite bind_run.
  destruct (fix_file filepath fixes w) as [[[]|e|what] w1]; simpl;
    rewrite ?print_run; try destruct (refuses _ _ _); reflexivity.
Qed.

(** Every call of the loop is a call of [fix_file] for some entry, made in a
    world in which the files of the entries not yet gone through are as at
    the start. *)
Lemma loop_event table :
  ∀ w e,
    e ∈ new_calls (for_each table driver_step) w →
    ∃ pre entry post w',
      table = pre ++ entry :: post
      ∧ e ∈ new_calls (fix_file entry.1 entry.2) w'
      ∧ ∀ q, q ∉ pre.*1 → files w' !! q = files w !! q.
Proof.
  induction table as [|[filepath fixes] table IH]; intros w e.
  - unfold new_calls. simpl. rewrite drop_all. intros Hin. elem_cases Hin.
  - unfold new_calls. rewrite for_each_cons.
    pose proof (driver_step_effect filepath fixes w)
      as (_ & Hf & (block & Hc & _) & _).
    pose proof (driver_step_calls filepath fixes w) as Hsame.
    cbn zeta in *.
    assert (e ∈ block →
            ∃ pre entry post w',
              (filepath, fixes) :: table = pre ++ entry :: post
              ∧ e ∈ new_calls (fix_file entry.1 entry.2) w'
              ∧ ∀ q, q ∉ pre.*1 → files w' !! q = files w !! q) as Hhere.
    { intros Hin. exists [], (filepath, fixes), table, w.
      split; [done|]. split; [|done]. simpl.
      unfold new_calls. rewrite <- Hsame, Hc. by rewrite drop_app_length. }
    destruct (driver_step (filepath, fixes) w) as [[[]|e'|what] w1];
      simpl in *.
    + destruct (driver_loop_effect table w1)
        as (_ & _ & (n & blocks & Hc' & _) & _).
      cbn zeta in *. rewrite Hc', Hc, <- app_assoc, drop_app_length.
      intros [Hin|Hin]%elem_of_app; [by apply Hhere|].
      destruct (IH w1 e) as (pre & entry & post & w' & -> & Hev & Hfr).
      { unfold new_calls. by rewrite Hc', drop_app_length. }
      exists ((filepath, fixes) :: pre), entry, post, w'.
      split; [done|]. split; [done|].
      intros q Hq. simpl in Hq. apply not_elem_of_cons in Hq as [Hne Hq].
      rewrite (Hfr q Hq). by apply Hf.
    + rewrite Hc, drop_app_length. apply Hhere.
    + rewrite Hc, drop_app_length. apply Hhere.
Qed.

Lemma driver_event table w e :
  e ∈ new_calls (driver table) w →
  ∃ pre entry post w',
    table = pre ++ entry :: post
    ∧ e ∈ new_calls (fix_file entry.1 entry.2) w'
    ∧ ∀ q, q ∉ pre.*1 → files w' !! q = files w !! q.
Proof.
  unfold new_calls. rewrite driver_run, print_run.
  destruct (refuses (sys_stdout w) (stdout w) header).
  { simpl. rewrite drop_all. intros Hin. elem_cases Hin. }
  set (w0 := World (files w) (free_space w) _ (calls w) _).
  pose proof (loop_event table w0 e) as Hloop. unfold new_calls in Hloop.
  destruct (for_each table driver_step w0) as [[[]|e'|what] w1];
    simpl in *; rewrite ?print_run; try destruct (refuses _ _ _); exact Hloop.
Qed.

(** ** Files are neither created nor removed *)

Lemma read_text_file w filepath original :
  read_text w filepath = Ok original →
  ∃ f, files w !! filepath = Some f ∧ readable f = true
       ∧ ∃ t, decode_utf8 (data f) = Some t
              ∧ original = universal_newlines t.
Proof.
  unfold read_text.
  destruct (files w !! filepath) as [f|]; [|done].
  destruct (readable f) eqn:Hr; [|done].
  destruct (decode_utf8 (data f)) as [t|] eqn:Hd; [|done].
  intros [= <-]. eauto 10.
Qed.

Lemma permissions_files w w' :
  files w' = files w → ∀ q, permissions w' q = permissions w q.
Proof. unfold permissions. by intros ->. Qed.

Lemma write_back_permissions filepath content w f :
  files w !! filepath = Some f →
  ∀ q, permissions (write_back filepath content w).2 q = permissions w q.
Proof.
  intros Hf q. unfold permissions. io_run. rewrite Hf.
  destruct (writable f) eqn:Hw; simpl; [|done].
  assert (∀ bytes : list byte,
            (λ f0, (readable f0, writable f0))
              <$> alter (λ f0, File (readable f0) (writable f0) bytes) filepath
                    (<[filepath := File (readable f) true []]> (files w)) !! q
            = (λ f0, (readable f0, writable f0)) <$> files w !! q) as Halter.
  { intros bytes. destruct (decide (q = filepath)) as [->|Hne].
    - rewrite lookup_alter_eq, lookup_insert_eq, Hf. simpl. by rewrite Hw.
    - by rewrite lookup_alter_ne, lookup_insert_ne. }
  destruct (encode_utf8 content) as [bytes|]; simpl.
  - destruct (length bytes <=? _)%nat; simpl; apply Halter.
  - destruct (decide (q = filepath)) as [->|Hne].
    + rewrite lookup_insert_eq, Hf. simpl. by rewrite Hw.
    + by rewrite lookup_insert_ne.
Qed.

Lemma report_files filepath e w :
  files (report filepath e w).2 = files w.
Proof. rewrite report_run. by destruct (refuses _ _ _). Qed.

Lemma fix_file_permissions filepath fixes w q :
  permissions (fix_file filepath fixes w).2 q = permissions w q.
Proof.
  rewrite fix_file_run.
  destruct (read_text w filepath) as [original|e|what] eqn:Hread.
  2: { apply permissions_files. by rewrite report_files. }
  2: { done. }
  cbn zeta.
  destruct (apply_fixes fixes original) as [content|e|what].
  2: { apply permissions_files. by rewrite report_files. }
  2: { done. }
  destruct (decide (content = original)); [done|].
  apply read_text_file in Hread as (f & Hf & _).
  set (w1 := logged _ w).
  pose proof (write_back_permissions filepath content w1 f Hf q) as Hp.
  destruct (write_back filepath content w1) as [[[]|e|what] w2];
    simpl in *; [done| |done].
  transitivity (permissions w2 q); [|exact Hp].
  apply permissions_files. by rewrite report_files.
Qed.

Lemma driver_step_files filepath fixes w :
  files (driver_step (filepath, fixes) w).2
  = files (fix_file filepath fixes w).2.
Proof.
  unfold driver_step. rewrite bind_run.
  destruct (fix_file filepath fixes w) as [[[]|e|what] w1]; simpl;
    rewrite ?print_run; try destruct (refuses _ _ _); reflexivity.
Qed.

Lemma loop_permissions table q :
  ∀ w, permissions (for_each table driver_step w).2 q = permissions w q.
Proof.
  induction table as [|[filepath fixes] table IH]; intros w; [done|].
  rewrite for_each_cons.
  pose proof (driver_step_files filepath fixes w) as Hf.
  pose proof (fix_file_permissions filepath fixes w q) as Hp.
  destruct (driver_step (filepath, fixes) w) as [[[]|e|what] w1];
    simpl in *; rewrite ?IH; rewrite <- Hp; by apply permissions_files.
Qed.

(** X2.  A run creates no file and removes none, and leaves the permissions
    of every file as they are: [fix_file] opens a file for writing only
    after it has read it. *)
Theorem X2_no_file_created_or_removed :
  (∀ filepath fixes w q,
     permissions (fix_file filepath fixes w).2 q = permissions w q)
  ∧ (∀ table w q, permissions (driver table w).2 q = permissions w q)
  ∧ (∀ table w q,
       is_Some (files (driver table w).2 !! q) ↔ is_Some (files w !! q)).
Proof.
  assert (∀ table w q, permissions (driver table w).2 q = permissions w q)
    as Hdriver.
  { intros table w q. rewrite driver_run, print_run.
    destruct (refuses (sys_stdout w) (stdout w) header); [done|].
    set (w0 := World (files w) (free_space w) _ (calls w) _).
    pose proof (loop_permissions table q w0) as Hp.
    destruct (for_each table driver_step w0) as [[[]|e|what] w1];
      simpl in *; rewrite ?print_run; try destruct (refuses _ _ _);
      exact Hp. }
  split; [apply fix_file_permissions|]. split; [exact Hdriver|].
  intros table w q. specialize (Hdriver table w q).
  unfold permissions in Hdriver.
  destruct (files (driver table w).2 !! q), (files w !! q);
    simpl in Hdriver; try done; split; intros [? ?]; done.
Qed.

(** ** What the script's table reads and writes *)

Lemma storable_scalar c : storable c = true → is_scalar c = true.
Proof. unfold storable. by intros [? _]%andb_true_iff. Qed.

Lemma read_text_storable w filepath original :
  read_text w filepath = Ok original →
  Forall (λ c, storable c = true) original.
Proof.
  intros (f & _ & _ & t & Hd & ->)%read_text_file.
  pose proof (decode_scalars _ _ Hd) as Hs.
  assert (Forall (λ c, is_scalar c = true) t) as Ht.
  { apply Forall_forall. intros c Hc.
    rewrite forallb_forall in Hs. apply Hs. by apply list_elem_of_In. }
  eapply Forall_impl.
  - apply (universal_newlines_chars (λ c, is_scalar c = true) (length t));
      [reflexivity|done|exact Ht].
  - intros c [Hc Hcr]. unfold storable. rewrite Hc. simpl.
    apply negb_true_iff. by apply N.eqb_neq.
Qed.

Lemma tame_rules fixes :
  forallb tame fixes = true →
  Forall (λ rule, is_literal rule.2 = true
                  ∧ Forall (λ c, storable c = true) rule.2) fixes.
Proof.
  intros H. apply Forall_forall. intros rule Hr.
  rewrite forallb_forall in H.
  specialize (H rule (proj1 (list_elem_of_In _ _) Hr)).
  apply andb_true_iff in H as [Hl Hs]. split; [done|].
  apply Forall_forall. intros c Hc.
  rewrite forallb_forall in Hs. apply Hs. by apply list_elem_of_In.
Qed.

Lemma file_fixes_tame entry :
  entry ∈ file_fixes → forallb tame entry.2 = true.
Proof.
  intros Hin.
  assert (forallb (λ entry, forallb tame entry.2) file_fixes = true) as Hall
    by (vm_compute; reflexivity).
  rewrite forallb_forall in Hall. apply Hall. by apply list_elem_of_In.
Qed.

Lemma storable_text content :
  Forall (λ c, storable c = true) content →
  is_Some (encode_utf8 content) ∧ CR ∉ content.
Proof.
  intros Hall. split.
  - apply encode_utf8_scalars. apply forallb_forall. intros c Hc.
    apply storable_scalar.
    rewrite Forall_forall in Hall. apply Hall. by apply list_elem_of_In.
  - intros Hin. rewrite Forall_forall in Hall.
    specialize (Hall CR Hin). vm_compute in Hall. discriminate.
Qed.

(** X3.  Whatever the files hold, what a run of the script writes can be
    encoded, so that no write fails on the codec, and holds no carriage
    return: a file with the line endings of Windows that a rule changes is
    written back with those of POSIX. *)
Theorem X3_table_writes_are_encodable :
  (∀ w q content,
     EvWrite q content ∈ new_calls main w →
     is_Some (encode_utf8 content) ∧ CR ∉ content)
  ∧ (data <$> files crlf_world !! carousel
     = Some (bytes_of ("  " +:+ current_line +:+ String "013" newline
                       +:+ "  return currentID.name;"
                       +:+ String "013" newline))
     ∧ data <$> files (main crlf_world).2 !! carousel
       = Some (bytes_of ("  " +:+ current_line +:+ newline +:+ newline
                         +:+ guard_line +:+ newline
                         +:+ "  return currentID.name;" +:+ newline))).
Proof.
  split.
  - intros w q content Hin. unfold main in Hin.
    apply driver_event in Hin
      as (pre & entry & post & w' & Htable & Hev & _).
    apply fix_file_writes in Hev as (_ & original & Hread & Happ & _).
    apply storable_text.
    eapply (apply_fixes_chars (λ c, storable c = true) entry.2).
    + apply tame_rules, file_fixes_tame. rewrite Htable.
      apply elem_of_app. right. by left.
    + by eapply read_text_storable.
    + exact Happ.
  - split; vm_compute; reflexivity.
Qed.



(** X5.  When [fix_file] returns [True], reading the file again gives the
    text that was written, with its line endings normalised. *)
Theorem X5_written_text_is_read_back filepath fixes w :
  (fix_file filepath fixes w).1 = Ok true →
  ∃ original content,
    read_text w filepath = Ok original
    ∧ apply_fixes fixes original = Ok content
    ∧ content ≠ original
    ∧ read_text (fix_file filepath fixes w).2 filepath
      = Ok (universal_newlines content).
Proof.
  rewrite fix_file_run.
  destruct (read_text w filepath) as [original|e|what] eqn:Hread.
  2: { rewrite report_run. by destruct (refuses _ _ _). }
  2: { done. }
  cbn zeta.
  destruct (apply_fixes fixes original) as [content|e|what] eqn:Happ.
  2: { rewrite report_run. by destruct (refuses _ _ _). }
  2: { done. }
  destruct (decide (content = original)) as [|Hne]; [done|].
  set (w1 := logged _ w).
  pose proof (write_back_outcome filepath content w1) as Hout.
  destruct (read_text_file _ _ _ Hread) as (f & Hf & Hr & _).
  unfold write_outcome in Hout.
  change (files w1) with (files w) in Hout. rewrite Hf in Hout.
  destruct (writable f) eqn:Hw.
  2: { destruct (write_back filepath content w1) as [[[]|e|what] w2];
         simpl in *; try done.
       rewrite report_run. by destruct (refuses _ _ _). }
  destruct (encode_utf8 content) as [bytes|] eqn:Hb.
  2: { destruct (write_back filepath content w1) as [[[]|e|what] w2];
         simpl in *; try done.
       rewrite report_run. by destruct (refuses _ _ _). }
  destruct (length bytes <=? free_space w1 + length (data f))%nat eqn:Hlen.
  2: { destruct (write_back filepath content w1) as [[[]|e|what] w2];
         simpl in *; try done.
       rewrite report_run. by destruct (refuses _ _ _). }
  apply Nat.leb_le in Hlen.
  rewrite (write_back_ok filepath content w1 f bytes Hf Hw Hb Hlen).
  intros _. exists original, content.
  split; [done|]. split; [done|]. split; [done|].
  unfold read_text. simpl. rewrite lookup_insert_eq. simpl. rewrite Hr.
  by rewrite (decode_utf8_encoded _ _ Hb).
Qed.

Lemma X5_written_text_is_read_back_witness :
  (fix_file carousel carousel_fixes carousel_world).1 = Ok true
  ∧ ∃ original content,
      read_text carousel_world carousel = Ok original
      ∧ apply_fixes carousel_fixes original = Ok content
      ∧ content ≠ original
      ∧ read_text (fix_file carousel carousel_fixes carousel_world).2 carousel
        = Ok (universal_newlines content).
Proof.
  assert ((fix_file carousel carousel_fixes carousel_world).1 = Ok true)
    as Hr by (vm_compute; reflexivity).
  split; [exact Hr|].
  exact (X5_written_text_is_read_back carousel carousel_fixes carousel_world
           Hr).
Defined.


